(** * HeadersPolyfill (src/Headers.ts): a shallow embedding and its properties

    The class keeps two private fields:
    - [headers], a plain object literal [{}] from normalized header name to
      normalized value;
    - [names], a [Map] from normalized header name to the raw spelling last
      passed to [set].

    The plain object is modelled with the part of the ECMAScript object model
    the class exercises: own properties in creation order, the members it
    inherits from [Object.prototype], the [__proto__] accessor, and the order
    in which [Object.keys] lists own properties.  The [Map] is only read and
    written by key, so it is a [gmap].

    [normalizeHeaderName] and [normalizeHeaderValue] are imported from files
    that are not among the sources: the class is modelled over an interface
    ([Normalizers]) that any such pair of functions implements, and the
    functions the specification describes are given as one instance, on which
    the closed examples run.

    Characters are 8-bit code units ([ascii]); strings are [string].

    The file has the embedding first (values, plain objects, the class), then
    the definitions the statements are written with, then the proofs. *)

From Stdlib Require Import NArith Ascii Lia.
From stdpp Require Import base option list sorting gmap strings.

Local Open Scope N_scope.

(** ** JavaScript values that the class can hand back *)

Inductive JsValue :=
| JsString (s : string)
| JsNull
| JsUndefined
| JsProtoMember (name : string).
  (* the member [name] of Object.prototype, a function or, for [__proto__],
     the prototype object itself *)

Global Instance JsValue_eq_dec : EqDecision JsValue.
Proof. solve_decision. Defined.

(** ToBoolean, as used by [||]. *)
Definition truthy (v : JsValue) : bool :=
  match v with
  | JsString s => if decide (s = "") then false else true
  | JsNull | JsUndefined => false
  | JsProtoMember _ => true
  end.

(** [v || null]. *)
Definition or_null (v : JsValue) : JsValue :=
  if truthy v then v else JsNull.

(** ToString, as applied by a template literal's substitution.  The class
    applies it to what [get] returns for a stored name, a string or [null];
    the text of a prototype member is given for completeness. *)
Definition ToString (v : JsValue) : string :=
  match v with
  | JsString s => s
  | JsNull => "null"
  | JsUndefined => "undefined"
  | JsProtoMember name =>
      if decide (name = "__proto__") then "[object Object]"
      else "function " +:+ name +:+ "() { [native code] }"
  end.

(** [Array.prototype.join] on an array of strings. *)
Fixpoint join (sep : string) (l : list string) : string :=
  match l with
  | [] => ""
  | [s] => s
  | s :: r => s +:+ sep +:+ join sep r
  end.

(** ** Plain objects

    An object created by [{}]: its own (enumerable, writable, string-keyed)
    data properties in creation order.  Its prototype is [Object.prototype]. *)

Module JsObject.

Section Own.
Context {V : Type}.
Implicit Types (o : list (string * V)) (k : string) (v : V).

(** The own property [k], if any. *)
Fixpoint own o k : option V :=
  match o with
  | [] => None
  | (k', v') :: r => if decide (k' = k) then Some v' else own r k
  end.

(** [Object.prototype.hasOwnProperty.call(o, k)]. *)
Definition hasOwn o k : bool :=
  match own o k with Some _ => true | None => false end.

(** Writes the own property [k]: an existing property keeps its position,
    a new one is created after all others. *)
Fixpoint define o k v : list (string * V) :=
  match o with
  | [] => [(k, v)]
  | (k', v') :: r =>
      if decide (k' = k) then (k', v) :: r else (k', v') :: define r k v
  end.

(** [o[k] = v] for a primitive [v] (a string or [null]).  When [k] is not an
    own property, the lookup reaches [Object.prototype]: all its members are
    writable data properties, so the assignment creates an own property,
    except for [__proto__], an accessor whose setter ignores a string and, for
    [null], changes the prototype; no own property is created either way.
    (The model keeps no prototype link: only [raw] can assign [null], at
    most once to the object it builds, and it reads no property of that
    object afterwards.) *)
Definition assign o k v : list (string * V) :=
  if hasOwn o k then define o k v
  else if decide (k = "__proto__") then o
  else define o k v.

(** [delete o[k]]. *)
Fixpoint remove o k : list (string * V) :=
  match o with
  | [] => []
  | (k', v') :: r =>
      if decide (k' = k) then remove r k else (k', v') :: remove r k
  end.

End Own.

(** The names [Object.prototype] defines. *)
Definition prototype_members : list string :=
  [ "constructor"; "__defineGetter__"; "__defineSetter__"; "hasOwnProperty";
    "__lookupGetter__"; "__lookupSetter__"; "isPrototypeOf";
    "propertyIsEnumerable"; "toString"; "valueOf"; "__proto__";
    "toLocaleString" ].

Definition inherited (k : string) : bool :=
  bool_decide (k ∈ prototype_members).

(** [o[k]] for an object holding strings: the own property, else the member
    inherited from [Object.prototype], else [undefined]. *)
Definition get (o : list (string * string)) (k : string) : JsValue :=
  match own o k with
  | Some s => JsString s
  | None => if inherited k then JsProtoMember k else JsUndefined
  end.

(** *** Property order

    [Object.keys], [Object.values], [for..in] and
    [Object.getOwnPropertyNames] list the own properties whose name is an
    array index first, in ascending numeric order, and then the other names
    in creation order (OrdinaryOwnPropertyKeys). *)

Definition digit (c : ascii) : option N :=
  let n := N_of_ascii c in
  if (48 <=? n) && (n <=? 57) then Some (n - 48) else None.

Fixpoint digits (s : string) (acc : N) : option N :=
  match s with
  | EmptyString => Some acc
  | String c r =>
      match digit c with
      | Some d => digits r (10 * acc + d)
      | None => None
      end
  end.

(** An array index is the canonical decimal spelling of an integer in
    [0, 2^32 - 2]. *)
Definition array_index (s : string) : option N :=
  match s with
  | EmptyString => None
  | String c r =>
      if bool_decide (c = "0"%char) && negb (bool_decide (r = "")) then None
      else match digits s 0 with
           | Some n => if n <? 4294967295 then Some n else None
           | None => None
           end
  end.

Definition is_index (s : string) : bool :=
  match array_index s with Some _ => true | None => false end.

Definition index_value (s : string) : N :=
  match array_index s with Some n => n | None => 0 end.

(** Insertion of an index name into a list sorted by numeric value. *)
Fixpoint insert_index (k : string) (l : list string) : list string :=
  match l with
  | [] => [k]
  | k' :: r =>
      if index_value k <=? index_value k' then k :: l
      else k' :: insert_index k r
  end.

Definition sort_indices (l : list string) : list string :=
  foldr insert_index [] l.

Definition order (created : list string) : list string :=
  sort_indices (filter (λ k, is_index k = true) created)
  ++ filter (λ k, is_index k = false) created.

Definition keys {V} (o : list (string * V)) : list string :=
  order (o.*1).

Definition values {V} (o : list (string * V)) : list V :=
  omap (own o) (keys o).

End JsObject.

(** ** Errors and the imported normalizers *)

Inductive Error :=
| InvalidHeaderName
| InvalidHeaderValue
| TypeError.

Global Instance Error_eq_dec : EqDecision Error.
Proof. solve_decision. Defined.

(** How an evaluation ends: with a value or with a thrown error. *)
Inductive Completion (A : Type) :=
| Normal (a : A)
| Throw (e : Error).
Global Arguments Normal {A} a.
Global Arguments Throw {A} e.

(** ASCII lower-casing, the part of [String.prototype.toLowerCase] that
    matters for header names. *)
Definition lower_char (c : ascii) : ascii :=
  let n := N_of_ascii c in
  if (65 <=? n) && (n <=? 90) then ascii_of_N (n + 32) else c.

Fixpoint lowercase (s : string) : string :=
  match s with
  | EmptyString => EmptyString
  | String c r => String (lower_char c) (lowercase r)
  end.

(** [./utils/normalizeHeaderName] and [./utils/normalizeHeaderValue] are
    imported by Headers.ts: the class is stated over any pair of pure
    functions that either return the normalized string or throw, and that
    satisfy what the specification promises of name normalization (its result
    is lower-cased, and normalizing it again changes nothing). *)
Class Normalizers := {
  normalizeHeaderName : string → Completion string;
  normalizeHeaderValue : string → Completion string;
  normalizeHeaderName_idempotent n k :
    normalizeHeaderName n = Normal k → normalizeHeaderName k = Normal k;
  normalizeHeaderName_lowercase n k :
    normalizeHeaderName n = Normal k → lowercase k = k;
}.

(** ** The class *)

Module HeadersPolyfill.

(** The two private fields. *)
Record state := State {
  headers : list (string * string);
  names : gmap string string;
}.

(** Field initializers: [headers = {}], [names = new Map()]. *)
Definition new : state := {| headers := []; names := ∅ |}.

(** Method bodies run against [this] and may throw; what was written to
    [this] before a throw stays written. *)
Definition M (A : Type) : Type := state → Completion A * state.

Global Instance M_ret : MRet M := λ A a h, (Normal a, h).
Global Instance M_bind : MBind M := λ A B f m h,
  match m h with
  | (Normal a, h') => f a h'
  | (Throw e, h') => (Throw e, h')
  end.

Definition throw {A} (e : Error) : M A := λ h, (Throw e, h).
Definition lift {A} (c : Completion A) : M A := λ h, (c, h).
Definition this_headers : M (list (string * string)) :=
  λ h, (Normal (headers h), h).
Definition this_names : M (gmap string string) :=
  λ h, (Normal (names h), h).
Definition update_headers (f : list (string * string) → list (string * string))
  : M unit :=
  λ h, (Normal (), {| headers := f (headers h); names := names h |}).
Definition update_names (f : gmap string string → gmap string string)
  : M unit :=
  λ h, (Normal (), {| headers := headers h; names := f (names h) |}).

(** [Array.prototype.forEach]. *)
Fixpoint Array_forEach {A} (l : list A) (callback : A → M unit) : M unit :=
  match l with
  | [] => mret ()
  | x :: r => callback x ;; Array_forEach r callback
  end.

(** A [for..of] loop collecting what its body computes. *)
Fixpoint for_of {A B} (l : list A) (body : A → M B) : M (list B) :=
  match l with
  | [] => mret []
  | x :: r => y ← body x; ys ← for_of r body; mret (y :: ys)
  end.

(** [this.headers.hasOwnProperty(k)]: the method is looked up on the object
    itself first, where an own property of that name, a string, is not
    callable. *)
Definition call_hasOwnProperty (o : list (string * string)) (k : string)
  : M bool :=
  if JsObject.hasOwn o "hasOwnProperty" then throw TypeError
  else mret (JsObject.hasOwn o k).

(** [this.names.get(name)] used as a property key: [undefined] becomes the
    key ["undefined"]. *)
Definition names_get (m : gmap string string) (name : string) : string :=
  default "undefined" (m !! name).

Section Methods.
Context `{!Normalizers}.

(** lines 124-126 *)
Definition has (name : string) : M bool :=
  k ← lift (normalizeHeaderName name);
  o ← this_headers;
  call_hasOwnProperty o k.

(** lines 63-65 *)
Definition get (name : string) : M JsValue :=
  k ← lift (normalizeHeaderName name);
  o ← this_headers;
  mret (or_null (JsObject.get o k)).

(** lines 70-74 *)
Definition set (name value : string) : M unit :=
  normalizedName ← lift (normalizeHeaderName name);
  v ← lift (normalizeHeaderValue value);
  update_headers (λ o, JsObject.assign o normalizedName v);;
  update_names (λ m, <[normalizedName := name]> m).

(** lines 79-86 *)
Definition append (name value : string) : M unit :=
  normalizedName ← lift (normalizeHeaderName name);
  present ← has normalizedName;
  resolvedValue ←
    (if present : bool
     then old ← get normalizedName; mret (ToString old +:+ ", " +:+ value)
     else mret value);
  set name resolvedValue.

(** lines 91-99 *)
Definition delete (name : string) : M unit :=
  present ← has name;
  if negb present then mret ()
  else
    normalizedName ← lift (normalizeHeaderName name);
    update_headers (λ o, JsObject.remove o normalizedName);;
    update_names (λ m, base.delete normalizedName m).

(** lines 42-58: the generators, run to their end with no call on [this]
    in between. *)
Definition keys : M (list string) :=
  o ← this_headers; mret (JsObject.keys o).

Definition values : M (list string) :=
  o ← this_headers; mret (JsObject.values o).

Definition entries : M (list (string * JsValue)) :=
  o ← this_headers;
  for_of (JsObject.keys o) (λ name, v ← get name; mret (name, v)).

(** lines 104-106 *)
Definition all : M (list (string * string)) := this_headers.

(** lines 111-119 *)
Definition raw : M (list (string * JsValue)) :=
  es ← entries;
  m ← this_names;
  mret (foldl (λ rawHeaders '(name, value),
                 JsObject.assign rawHeaders (names_get m name) value) [] es).

(** lines 132-146, as the list of [(value, name)] the callback is called
    with, for a callback that leaves this object alone.  [for..in] visits the
    enumerable properties, own and inherited; [Object.prototype] has no
    enumerable member. *)
Definition forEach : M (list (string * string)) :=
  o ← this_headers;
  calls ← for_of (JsObject.keys o) (λ name,
    own ← call_hasOwnProperty o name;
    mret (if own : bool then (λ v, (v, name)) <$> JsObject.own o name
          else None));
  mret (omap id calls).

(** *** Construction (lines 13-36) *)

(** [string | string[]], the value of an entry of a list or record
    initializer. *)
Inductive HeaderValue :=
| Single (s : string)
| Several (l : list string).

(** [Array.isArray(value) ? value.join(', ') : value] *)
Definition resolve (value : HeaderValue) : string :=
  match value with
  | Single s => s
  | Several l => join ", " l
  end.

(** What a record inherits from: [Object.prototype], as an object literal
    does, or nothing, as [Object.create(null)] does. *)
Inductive Prototype :=
| ObjectPrototype
| NoPrototype.

(** The shapes the constructor tells apart. *)
Inductive HeadersInit :=
| FromHeaders (calls : list (string * string))
  (* a [Headers] or [HeadersPolyfill] instance, given by the [(value, name)]
     its [forEach] passes to the callback *)
| FromList (l : list (string * HeaderValue))
  (* an array of pairs *)
| FromObject (proto : Prototype) (o : list (string * HeaderValue))
  (* a record, by its prototype and its own properties in creation order *)
| Absent.

(** The test of lines 18-21,
    [['Headers', 'HeadersPolyfill'].includes(init?.constructor.name)
     || init instanceof HeadersPolyfill].
    It holds of a [Headers] or [HeadersPolyfill] instance.  An array has the
    constructor [Array], and [init?.] stops at an absent initializer.  For a
    record, [init.constructor] is its own property of that name when it has
    one, a string or an array, whose [name] is [undefined]; else it is
    inherited: [Object], named ["Object"], or, without a prototype,
    [undefined], and reading [name] off [undefined] throws a TypeError. *)
Definition headers_shaped (init : HeadersInit) : Completion bool :=
  match init with
  | FromHeaders _ => Normal true
  | FromList _ => Normal false
  | FromObject proto o =>
      if JsObject.hasOwn o "constructor" then Normal false
      else match proto with
           | ObjectPrototype => Normal false
           | NoPrototype => Throw TypeError
           end
  | Absent => Normal false
  end.

(** [Object.getOwnPropertyNames(init)] paired with [init[name]]. *)
Definition own_entries {V} (o : list (string * V)) : list (string * V) :=
  omap (λ name, (λ v, (name, v)) <$> JsObject.own o name) (JsObject.keys o).

(** The test is evaluated first, and may throw; it holds of the first shape
    only, so the branches are told apart by the shape. *)
Definition constructor_body (init : HeadersInit) : M unit :=
  lift (headers_shaped init);;
  match init with
  | FromHeaders calls =>
      (* lines 22-25 *)
      Array_forEach calls (λ '(value, name), append name value)
  | FromList l =>
      (* lines 26-29: [Array.isArray(init)] *)
      Array_forEach l (λ '(name, value), append name (resolve value))
  | FromObject _ o =>
      (* lines 30-34: [init] is truthy *)
      Array_forEach (own_entries o)
        (λ '(name, value), append name (resolve value))
  | Absent => mret ()
  end.

(** [new HeadersPolyfill(init)]: the instance, unless the body throws. *)
Definition constructor (init : HeadersInit) : Completion state :=
  match constructor_body init new with
  | (Normal _, h) => Normal h
  | (Throw e, _) => Throw e
  end.

(** *** Instances a program can hold *)

(** A call of one of the three mutating methods. *)
Inductive Mutation :=
| Set_ (name value : string)
| Append (name value : string)
| Delete (name : string).

Definition mutate (c : Mutation) : M unit :=
  match c with
  | Set_ name value => set name value
  | Append name value => append name value
  | Delete name => delete name
  end.

(** The instances reachable from outside the class: built by the
    constructor, then changed by calls of [set], [append] and [delete],
    whether they return or throw. *)
Inductive reachable : state → Prop :=
| reachable_new init h :
    constructor init = Normal h → reachable h
| reachable_mutate h c r h' :
    reachable h → mutate c h = (r, h') → reachable h'.

(** lines 38-40: the default iterator is [entries()]. *)
Definition Symbol_iterator : M (list (string * JsValue)) := entries.

End Methods.

End HeadersPolyfill.

(** ** The normalizers as the specification words them

    utils/normalizeHeaderName.ts and utils/normalizeHeaderValue.ts are not
    among the sources; section 4.2 of the specification describes them.  The
    definitions below follow that description and give the class above an
    instance to run on. *)

Definition is_whitespace (c : ascii) : bool :=
  let n := N_of_ascii c in ((9 <=? n) && (n <=? 13)) || (n =? 32).

(** The header-name token characters (RFC 7230 tchar): letters, digits and
    [! # $ % & ' * + - . ^ _ ` | ~]; control characters, whitespace and the
    separators (colon, parentheses, angle brackets, at sign, comma,
    semicolon, backslash, double quote, slash, square brackets, question
    mark, equals sign, braces) are left out. *)
Definition is_token_char (c : ascii) : bool :=
  let n := N_of_ascii c in
  ((48 <=? n) && (n <=? 57)) || ((65 <=? n) && (n <=? 90))
  || ((97 <=? n) && (n <=? 122))
  || bool_decide (n ∈ [33; 35; 36; 37; 38; 39; 42; 43; 45; 46; 94; 95; 96; 124; 126]).

(** Control characters a value may not keep: all but the horizontal tab. *)
Definition is_disallowed_control (c : ascii) : bool :=
  let n := N_of_ascii c in ((n <? 32) && negb (n =? 9)) || (n =? 127).

Definition is_line_break (c : ascii) : bool :=
  let n := N_of_ascii c in (n =? 10) || (n =? 13).

Fixpoint all_chars (p : ascii → bool) (s : string) : bool :=
  match s with
  | EmptyString => true
  | String c r => p c && all_chars p r
  end.

Fixpoint trim_left (s : string) : string :=
  match s with
  | EmptyString => EmptyString
  | String c r => if is_whitespace c then trim_left r else s
  end.

Fixpoint trim_right (s : string) : string :=
  match s with
  | EmptyString => EmptyString
  | String c r =>
      match trim_right r with
      | EmptyString => if is_whitespace c then EmptyString else String c EmptyString
      | r' => String c r'
      end
  end.

Definition trim (s : string) : string := trim_right (trim_left s).

(** Every run of line-break characters becomes one space. *)
Fixpoint collapse_line_breaks (after_break : bool) (s : string) : string :=
  match s with
  | EmptyString => EmptyString
  | String c r =>
      if is_line_break c then
        if after_break then collapse_line_breaks true r
        else String " " (collapse_line_breaks true r)
      else String c (collapse_line_breaks false r)
  end.

(** Modelled from the spec: [normalizeHeaderName] of
    utils/normalizeHeaderName.ts.  It "fails with InvalidHeaderName if name
    is empty after trimming or contains characters outside the permitted
    header-name token set; otherwise returns the trimmed, lower-cased
    form". *)
Definition spec_normalizeHeaderName (name : string) : Completion string :=
  let t := trim name in
  if bool_decide (t = "") || negb (all_chars is_token_char t)
  then Throw InvalidHeaderName
  else Normal (lowercase t).

(** Modelled from the spec: [normalizeHeaderValue] of
    utils/normalizeHeaderValue.ts.  It "strips leading/trailing whitespace
    and collapses any internal line-break sequences into single spaces;
    fails with InvalidHeaderValue if the result still contains a disallowed
    control character". *)
Definition spec_normalizeHeaderValue (value : string) : Completion string :=
  let v := collapse_line_breaks false (trim value) in
  if negb (all_chars (λ c, negb (is_disallowed_control c)) v)
  then Throw InvalidHeaderValue
  else Normal v.

(** * The vocabulary of the statements *)

Import HeadersPolyfill.

(** The instance after [this.headers[k] = v; this.names.set(k, name)]. *)
Definition stored (h : state) (k name v : string) : state :=
  {| headers := JsObject.assign (headers h) k v;
     names := <[k := name]> (names h) |}.

(** The instance after [delete this.headers[k]; this.names.delete(k)]. *)
Definition removed (h : state) (k : string) : state :=
  {| headers := JsObject.remove (headers h) k;
     names := base.delete k (names h) |}.

(** [m] returns [a] and leaves the instance as it was. *)
Definition returns {A} (m : M A) (h : state) (a : A) : Prop :=
  m h = (Normal a, h).

Section Vocabulary.
Context `{!Normalizers}.
Implicit Types (h : state) (name value k v : string).

(** The value [append] passes on to [set]. *)
Definition resolved h k value : string :=
  if JsObject.hasOwn (headers h) k
  then ToString (or_null (JsObject.get (headers h) k)) +:+ ", " +:+ value
  else value.

(** What [entries] yields for the stored name [k]: [[k, this.get(k)]]. *)
Definition entry h k : string * JsValue :=
  (k, or_null (JsObject.get (headers h) k)).

(** The object [raw] builds. *)
Definition raw_object h : list (string * JsValue) :=
  foldl (λ rawHeaders '(name, value),
           JsObject.assign rawHeaders (names_get (names h) name) value)
    [] (entry h <$> JsObject.keys (headers h)).

(** The relation the class keeps between its two fields. *)
Record wf h : Prop := {
  (* a stored header has a raw name on record *)
  wf_raw_name k :
    JsObject.hasOwn (headers h) k = true → is_Some (names h !! k);
  (* a raw name on record is a spelling of its key *)
  wf_spelling k r :
    names h !! k = Some r → normalizeHeaderName r = Normal k;
  (* a raw name on record belongs to a stored header, [__proto__] apart *)
  wf_stored k :
    k ≠ "__proto__" → is_Some (names h !! k) →
    JsObject.hasOwn (headers h) k = true;
  (* [headers] never gets an own property [__proto__] *)
  wf_proto : JsObject.hasOwn (headers h) "__proto__" = false;
  wf_NoDup : NoDup (headers h).*1;
}.

End Vocabulary.

(** Ascending numeric order of array-index names. *)
Definition index_le (a b : string) : Prop :=
  JsObject.index_value a ≤ JsObject.index_value b.

(** In the specification's words: an empty map on which [append(name,
    value)] is called for each pair, in list order.  The result is the
    instance after the last call, or the error of the first call that
    throws. *)
Fixpoint sequential_appends `{!Normalizers}
    (h : state) (l : list (string * string)) : Completion state :=
  match l with
  | [] => Normal h
  | (name, value) :: r =>
      match append name value h with
      | (Normal _, h') => sequential_appends h' r
      | (Throw e, _) => Throw e
      end
  end.

(** The list initializer [[name, value], ...] with string values. *)
Definition pair_list (l : list (string * string)) : HeadersInit :=
  FromList ((λ '(name, value), (name, Single value)) <$> l).

(** The [(name, value)] the constructor passes to [append], in order. *)
Definition appended (init : HeadersInit) : list (string * string) :=
  match init with
  | FromHeaders calls => (λ '(value, name), (name, value)) <$> calls
  | FromList l => (λ '(name, value), (name, resolve value)) <$> l
  | FromObject _ o => (λ '(name, value), (name, resolve value)) <$> own_entries o
  | Absent => []
  end.

(** The string [append(name, value)] hands to [set] when the normalized
    name is [k]: [value] when [k] has no entry, else what [get] returns for
    it (the stored value, or [null] for the empty string), [", "] and
    [value]. *)
Definition merged (h : state) (k value : string) : string :=
  match JsObject.own (headers h) k with
  | None => value
  | Some existing =>
      (if decide (existing = "") then "null" else existing) +:+ ", " +:+ value
  end.

(** Normalization accepts every entry of [l], taken in order on the
    instance [h]: the name, and the value as merged with the value stored
    under the name by then. *)
Fixpoint accepts `{!Normalizers}
    (h : state) (l : list (string * string)) : bool :=
  match l with
  | [] => true
  | (name, value) :: r =>
      match normalizeHeaderName name with
      | Normal k =>
          match normalizeHeaderValue (merged h k value) with
          | Normal v => accepts (stored h k name v) r
          | Throw _ => false
          end
      | Throw _ => false
      end
  end.

(** The name a call is made with. *)
Definition mutation_name (c : Mutation) : string :=
  match c with
  | Set_ name _ | Append name _ | Delete name => name
  end.

(** In the claim's words: the normalized names in the order they were first
    inserted by a sequence of calls; a deleted name gives up its place. *)
Definition first_insertion_step `{!Normalizers}
    (inserted : list string) (c : Mutation) : list string :=
  match normalizeHeaderName (mutation_name c) with
  | Normal k =>
      match c with
      | Set_ _ _ | Append _ _ =>
          if bool_decide (k ∈ inserted) then inserted else inserted ++ [k]
      | Delete _ => filter (λ k', k' ≠ k) inserted
      end
  | Throw _ => inserted
  end.

Definition first_insertion_order `{!Normalizers} (calls : list Mutation)
  : list string :=
  foldl first_insertion_step [] calls.

(** C3 as stated: [append] stores the value as it is when the normalized
    name has no entry, and the existing stored value, [", "] and the new
    value otherwise. *)
Definition append_stores_as_stated `{!Normalizers}
    (h : state) (name value : string) : Prop :=
  ∀ k h',
    normalizeHeaderName name = Normal k →
    append name value h = (Normal (), h') →
    JsObject.own (headers h') k
    = Some (match JsObject.own (headers h) k with
            | None => value
            | Some existing => existing +:+ ", " +:+ value
            end).

(** The lockstep invariant of C1: the keys of [headers] are the keys of
    [names]. *)
Definition lockstep (h : state) : Prop :=
  list_to_set (headers h).*1 =@{gset string} dom (names h).

(** Every stored value came out of value normalization. *)
Definition values_normalized `{!Normalizers} (h : state) : Prop :=
  Forall (λ e, ∃ value, normalizeHeaderValue value = Normal e.2) (headers h).

(** What [get] makes of a stored value: the empty string reads as [null]. *)
Definition empty_as_null (v : string) : JsValue := or_null (JsString v).

(** The arguments [(value, name)] of a [forEach] callback for the entry
    [(name, value)]. *)
Definition callback_arguments (e : string * string) : string * string :=
  (e.2, e.1).

(** ** Instances and inputs the examples run on *)

(** The instance after [set("Accept", "text/html")]. *)
Definition one_header : state :=
  {| headers := [("accept", "text/html")];
     names := {["accept" := "Accept"]} |}.

(** A value that starts with a NUL character. *)
Definition nul_value : string := String "000"%char "v".

(** A record initializer, written as an object literal, with a multi-valued
    entry and a value that holds a tab. *)
Definition record_init : HeadersInit :=
  FromObject ObjectPrototype
    [("Accept", Several ["text/html"; "application/json"]);
     ("X-Request-Id", Single (String "009"%char "7"))].

(** [set("A","1"); set("B","2"); set("A","3")] and the instance it leaves. *)
Definition overwrite_calls : list Mutation :=
  [Set_ "A" "1"; Set_ "B" "2"; Set_ "A" "3"].

Definition overwritten : state :=
  {| headers := [("a", "3"); ("b", "2")];
     names := {["a" := "A"; "b" := "B"]} |}.

(** The instance after [append("X", "a")]. *)
Definition one_value : state :=
  {| headers := [("x", "a")]; names := {["x" := "X"]} |}.

(** The instance after [append("X", "")]. *)
Definition empty_value : state :=
  {| headers := [("x", "")]; names := {["x" := "X"]} |}.

(** The instance after [set("__proto__", "x")]. *)
Definition proto_named : state :=
  {| headers := []; names := {["__proto__" := "__proto__"]} |}.

(** The instance after [set("X-Token", "")]. *)
Definition empty_token : state :=
  {| headers := [("x-token", "")]; names := {["x-token" := "X-Token"]} |}.

(** The instances after [append("X-Foo", "a")] and then
    [append("x-foo", "b")]. *)
Definition x_foo_first : state :=
  {| headers := [("x-foo", "a")]; names := {["x-foo" := "X-Foo"]} |}.

Definition x_foo_merged : state :=
  {| headers := [("x-foo", "a, b")]; names := {["x-foo" := "x-foo"]} |}.

(** Unfolds the monad of method bodies down to state passing. *)
Ltac unfold_M :=
  unfold mbind, M_bind, mret, M_ret, lift, throw, this_headers, this_names,
    update_headers, update_names, call_hasOwnProperty in *.

(** * The normalizers of the specification satisfy the interface *)

Lemma token_char_not_whitespace c :
  is_token_char c = true → is_whitespace c = false.
Proof. by destruct c as [[] [] [] [] [] [] [] []]. Qed.

Lemma token_char_lower c :
  is_token_char c = true →
  is_token_char (lower_char c) = true ∧ lower_char (lower_char c) = lower_char c.
Proof. by destruct c as [[] [] [] [] [] [] [] []]. Qed.

Lemma lowercase_tokens s :
  all_chars is_token_char s = true →
  all_chars is_token_char (lowercase s) = true
  ∧ lowercase (lowercase s) = lowercase s.
Proof.
  induction s as [|c r IH]; simpl; [done|].
  intros [Hc Hr]%andb_prop.
  destruct (token_char_lower c Hc) as [-> ->], (IH Hr) as [-> ->]. done.
Qed.

Lemma trim_tokens s :
  all_chars is_token_char s = true → trim s = s.
Proof.
  unfold trim. intros Hs.
  assert (trim_left s = s) as ->.
  { destruct s as [|c r]; simpl in *; [done|].
    apply andb_prop in Hs as [Hc _].
    by rewrite (token_char_not_whitespace c Hc). }
  induction s as [|c r IH]; simpl in *; [done|].
  apply andb_prop in Hs as [Hc Hr]. rewrite (IH Hr).
  rewrite (token_char_not_whitespace c Hc). by destruct r.
Qed.

Lemma spec_normalizeHeaderName_inv n k :
  spec_normalizeHeaderName n = Normal k →
  k = lowercase (trim n) ∧ trim n ≠ "" ∧ all_chars is_token_char (trim n) = true.
Proof.
  unfold spec_normalizeHeaderName.
  case_bool_decide as Hne; simpl; [done|].
  destruct (all_chars is_token_char (trim n)); simpl; [|done].
  by intros [= <-].
Qed.

Lemma spec_normalizeHeaderName_idempotent n k :
  spec_normalizeHeaderName n = Normal k → spec_normalizeHeaderName k = Normal k.
Proof.
  intros (-> & Hne & Htok)%spec_normalizeHeaderName_inv.
  destruct (lowercase_tokens _ Htok) as [Hlow Hidem].
  unfold spec_normalizeHeaderName. rewrite (trim_tokens _ Hlow), Hlow, Hidem.
  case_bool_decide as Hempty; [|done].
  destruct (trim n); [done | discriminate].
Qed.

Lemma spec_normalizeHeaderName_lowercase n k :
  spec_normalizeHeaderName n = Normal k → lowercase k = k.
Proof.
  intros (-> & _ & Htok)%spec_normalizeHeaderName_inv.
  by destruct (lowercase_tokens _ Htok).
Qed.

(** The instance every closed example below runs on. *)
Global Instance spec_normalizers : Normalizers := {|
  normalizeHeaderName := spec_normalizeHeaderName;
  normalizeHeaderValue := spec_normalizeHeaderValue;
  normalizeHeaderName_idempotent := spec_normalizeHeaderName_idempotent;
  normalizeHeaderName_lowercase := spec_normalizeHeaderName_lowercase;
|}.

(** * Facts about plain objects *)

Section JsObject_facts.
Context {V : Type}.
Implicit Types (o : list (string * V)) (k : string) (v : V).

Lemma hasOwn_true o k : JsObject.hasOwn o k = true ↔ is_Some (JsObject.own o k).
Proof.
  unfold JsObject.hasOwn.
  destruct (JsObject.own o k); split; intros H; eauto; done.
Qed.

Lemma hasOwn_false o k : JsObject.hasOwn o k = false ↔ JsObject.own o k = None.
Proof. unfold JsObject.hasOwn. by destruct (JsObject.own o k). Qed.

Lemma hasOwn_elem_of o k : JsObject.hasOwn o k = true ↔ k ∈ o.*1.
Proof.
  rewrite hasOwn_true. induction o as [|[k' v'] r IH]; simpl.
  - split; [intros [? [=]] | by intros ?%elem_of_nil].
  - rewrite elem_of_cons. destruct (decide (k' = k)) as [->|Hne].
    + by split; eauto.
    + rewrite IH. split; [by right | by intros [->|]].
Qed.

Lemma own_define o k v k' :
  JsObject.own (JsObject.define o k v) k'
  = if decide (k = k') then Some v else JsObject.own o k'.
Proof.
  induction o as [|[k0 v0] r IH]; simpl.
  - by repeat case_decide.
  - repeat (case_decide; simpl; subst); congruence.
Qed.

Lemma own_remove o k k' :
  JsObject.own (JsObject.remove o k) k'
  = if decide (k = k') then None else JsObject.own o k'.
Proof.
  induction o as [|[k0 v0] r IH]; simpl.
  - by case_decide.
  - repeat (case_decide; simpl; subst); congruence.
Qed.

Lemma hasOwn_remove o k k' :
  JsObject.hasOwn (JsObject.remove o k) k'
  = if decide (k = k') then false else JsObject.hasOwn o k'.
Proof. unfold JsObject.hasOwn. rewrite own_remove. by case_decide. Qed.

(** What an assignment leaves as the own property [k']. *)
Lemma own_assign o k v k' :
  JsObject.own (JsObject.assign o k v) k'
  = if decide (k = k')
    then (if JsObject.hasOwn o k then Some v
          else if decide (k = "__proto__") then None else Some v)
    else JsObject.own o k'.
Proof.
  unfold JsObject.assign.
  destruct (JsObject.hasOwn o k) eqn:Hk.
  - apply own_define.
  - destruct (decide (k = "__proto__")); [|apply own_define].
    case_decide; subst; [|done]. by apply hasOwn_false.
Qed.

Lemma hasOwn_assign o k v k' :
  JsObject.hasOwn (JsObject.assign o k v) k'
  = if decide (k = k')
    then JsObject.hasOwn o k || negb (bool_decide (k = "__proto__"))
    else JsObject.hasOwn o k'.
Proof.
  unfold JsObject.hasOwn at 1. rewrite own_assign.
  case_decide; [|done].
  destruct (JsObject.hasOwn o k); [done|]. by case_bool_decide; case_decide.
Qed.

(** A write to a present property keeps the creation order; a write to an
    absent one appends the name. *)
Lemma define_names o k v :
  (JsObject.define o k v).*1
  = if JsObject.hasOwn o k then o.*1 else o.*1 ++ [k].
Proof.
  induction o as [|[k0 v0] r IH]; [done|].
  unfold JsObject.hasOwn in *; csimpl.
  destruct (decide (k0 = k)) as [->|Hne]; csimpl; [done|]. rewrite IH.
  by destruct (JsObject.own r k).
Qed.

Lemma assign_names o k v :
  (JsObject.assign o k v).*1
  = if JsObject.hasOwn o k || bool_decide (k = "__proto__") then o.*1
    else o.*1 ++ [k].
Proof.
  unfold JsObject.assign.
  destruct (JsObject.hasOwn o k) eqn:Hk; simpl.
  - by rewrite define_names, Hk.
  - case_bool_decide; case_decide; try done. by rewrite define_names, Hk.
Qed.

Lemma remove_names o k :
  (JsObject.remove o k).*1 = filter (λ k', k' ≠ k) o.*1.
Proof.
  induction o as [|[k0 v0] r IH]; [done|]. csimpl.
  rewrite filter_cons.
  destruct (decide (k0 = k)) as [->|Hne]; csimpl.
  - by rewrite decide_False by naive_solver.
  - by rewrite decide_True, IH by done.
Qed.

Lemma define_NoDup o k v : NoDup o.*1 → NoDup (JsObject.define o k v).*1.
Proof.
  intros Hnd. rewrite define_names.
  destruct (JsObject.hasOwn o k) eqn:Hk; [done|].
  apply NoDup_app. split_and!; [done| |apply NoDup_singleton].
  intros k' Hin ->%list_elem_of_singleton.
  apply hasOwn_elem_of in Hin. congruence.
Qed.

Lemma assign_NoDup o k v : NoDup o.*1 → NoDup (JsObject.assign o k v).*1.
Proof.
  unfold JsObject.assign. intros.
  repeat case_match; auto using define_NoDup.
Qed.

Lemma remove_NoDup o k : NoDup o.*1 → NoDup (JsObject.remove o k).*1.
Proof. rewrite remove_names. apply NoDup_filter. Qed.

End JsObject_facts.

(** *** The order of property names *)

Lemma insert_index_perm k l : JsObject.insert_index k l ≡ₚ k :: l.
Proof.
  induction l as [|k' r IH]; simpl; [done|].
  destruct (_ <=? _); [done|]. by rewrite IH, Permutation_swap.
Qed.

Lemma insert_index_sorted k l :
  Sorted index_le l → Sorted index_le (JsObject.insert_index k l).
Proof.
  induction 1 as [|k' r Hr IH Hhd]; simpl.
  - by repeat constructor.
  - destruct (N.leb_spec (JsObject.index_value k) (JsObject.index_value k')) as [Hle|Hgt].
    + by repeat constructor.
    + constructor; [done|].
      destruct Hhd as [|k'' r' Hle']; simpl in *.
      * constructor. unfold index_le. lia.
      * destruct (_ <=? _); constructor; unfold index_le in *; lia.
Qed.

Lemma sort_indices_perm l : JsObject.sort_indices l ≡ₚ l.
Proof.
  induction l as [|k r IH]; simpl; [done|].
  by rewrite insert_index_perm, IH.
Qed.

Lemma sort_indices_sorted l : Sorted index_le (JsObject.sort_indices l).
Proof.
  induction l as [|k r IH]; simpl; [constructor|].
  by apply insert_index_sorted.
Qed.

Lemma filter_index_split (l : list string) :
  filter (λ k, JsObject.is_index k = true) l
  ++ filter (λ k, JsObject.is_index k = false) l ≡ₚ l.
Proof.
  induction l as [|k r IH]; [done|].
  destruct (JsObject.is_index k) eqn:Hk.
  - rewrite filter_cons_True, filter_cons_False by congruence.
    simpl. by rewrite IH.
  - rewrite filter_cons_False, filter_cons_True by congruence.
    by rewrite <-Permutation_middle, IH.
Qed.

Lemma order_perm l : JsObject.order l ≡ₚ l.
Proof. unfold JsObject.order. by rewrite sort_indices_perm, filter_index_split. Qed.

Lemma order_elem_of l k : k ∈ JsObject.order l ↔ k ∈ l.
Proof. by rewrite order_perm. Qed.

Lemma order_NoDup l : NoDup l → NoDup (JsObject.order l).
Proof. by rewrite order_perm. Qed.

(** A name that is not an array index is listed where it was created:
    after every other such name created before it. *)
Lemma order_app_not_index l k :
  JsObject.is_index k = false →
  JsObject.order (l ++ [k]) = JsObject.order l ++ [k].
Proof.
  intros Hk. unfold JsObject.order.
  rewrite !filter_app.
  rewrite (filter_cons_False _ k), (filter_cons_True _ k) by congruence.
  by rewrite !filter_nil, app_nil_r, app_assoc.
Qed.

(** Without array-index names, the order is the creation order. *)
Lemma order_no_index l :
  Forall (λ k, JsObject.is_index k = false) l → JsObject.order l = l.
Proof.
  induction l as [|k r IH] using rev_ind; [done|].
  intros [Hr Hk]%Forall_app. rewrite Forall_singleton in Hk.
  rewrite order_app_not_index by exact Hk. by rewrite IH.
Qed.

(** * What each method does to an instance *)

Lemma bind_run {A B} (m : M A) (f : A → M B) (h : state) :
  (m ≫= f) h
  = match m h with
    | (Normal a, h') => f a h'
    | (Throw e, h') => (Throw e, h')
    end.
Proof. reflexivity. Qed.

Section Method_facts.
Context `{!Normalizers}.
Implicit Types (h : state) (name value k v : string).

Lemma has_run h name :
  has name h
  = (match normalizeHeaderName name with
     | Normal k =>
         if JsObject.hasOwn (headers h) "hasOwnProperty" then Throw TypeError
         else Normal (JsObject.hasOwn (headers h) k)
     | Throw e => Throw e
     end, h).
Proof.
  unfold has. unfold_M.
  destruct (normalizeHeaderName name); [|done].
  by destruct (JsObject.hasOwn (headers h) "hasOwnProperty").
Qed.

Lemma get_run h name :
  get name h
  = (match normalizeHeaderName name with
     | Normal k => Normal (or_null (JsObject.get (headers h) k))
     | Throw e => Throw e
     end, h).
Proof. unfold get. unfold_M. by destruct (normalizeHeaderName name). Qed.

Lemma set_run h name value :
  set name value h
  = match normalizeHeaderName name with
    | Normal k =>
        match normalizeHeaderValue value with
        | Normal v => (Normal (), stored h k name v)
        | Throw e => (Throw e, h)
        end
    | Throw e => (Throw e, h)
    end.
Proof.
  unfold set. unfold_M.
  destruct (normalizeHeaderName name); [|done].
  by destruct (normalizeHeaderValue value).
Qed.

Lemma delete_run h name :
  delete name h
  = match normalizeHeaderName name with
    | Normal k =>
        if JsObject.hasOwn (headers h) "hasOwnProperty" then (Throw TypeError, h)
        else if JsObject.hasOwn (headers h) k then (Normal (), removed h k)
        else (Normal (), h)
    | Throw e => (Throw e, h)
    end.
Proof.
  unfold delete. rewrite bind_run, has_run.
  destruct (normalizeHeaderName name) as [k|e] eqn:Hk; [|done].
  destruct (JsObject.hasOwn (headers h) "hasOwnProperty"); [done|].
  destruct (JsObject.hasOwn (headers h) k); simpl; [|done].
  by unfold_M.
Qed.

Lemma append_run h name value :
  append name value h
  = match normalizeHeaderName name with
    | Normal k =>
        if JsObject.hasOwn (headers h) "hasOwnProperty" then (Throw TypeError, h)
        else set name (resolved h k value) h
    | Throw e => (Throw e, h)
    end.
Proof.
  unfold append. rewrite bind_run. unfold lift.
  destruct (normalizeHeaderName name) as [k|e] eqn:Hk; [|done].
  pose proof (normalizeHeaderName_idempotent _ _ Hk) as Hkk.
  rewrite bind_run, has_run, Hkk.
  destruct (JsObject.hasOwn (headers h) "hasOwnProperty"); [done|].
  unfold resolved. rewrite bind_run.
  destruct (JsObject.hasOwn (headers h) k); [|done].
  by rewrite bind_run, get_run, Hkk.
Qed.

End Method_facts.

(** A non-empty value written under a key other than [__proto__] is what
    [get] reads back under any name with that key. *)
Lemma get_stored `{!Normalizers} (h : state) (name spelling k v : string) :
  normalizeHeaderName spelling = Normal k →
  k ≠ "__proto__" →
  v ≠ "" →
  JsObject.own (headers (stored h k name v)) k = Some v
  ∧ returns (get spelling) (stored h k name v) (JsString v).
Proof.
  intros Hk Hproto Hne.
  assert (JsObject.own (headers (stored h k name v)) k = Some v) as Hown.
  { simpl. rewrite own_assign, decide_True by done.
    destruct (JsObject.hasOwn (headers h) k); [done|]. by rewrite decide_False. }
  split; [done|].
  unfold returns. rewrite get_run, Hk. unfold JsObject.get. rewrite Hown.
  unfold or_null. simpl. by rewrite decide_False.
Qed.

(** * What holds of every reachable instance *)

Section Invariant.
Context `{!Normalizers}.
Implicit Types (h : state) (name value k v : string).

Lemma wf_key_normalized h k :
  wf h → JsObject.hasOwn (headers h) k = true → normalizeHeaderName k = Normal k.
Proof.
  intros Hwf [r Hr]%(wf_raw_name h Hwf).
  eauto using normalizeHeaderName_idempotent, wf_spelling.
Qed.

(** No stored name hides the inherited [hasOwnProperty]: stored names are
    lower-cased. *)
Lemma wf_callable h :
  wf h → JsObject.hasOwn (headers h) "hasOwnProperty" = false.
Proof.
  intros Hwf. destruct (JsObject.hasOwn _ _) eqn:Hown; [|done].
  apply (wf_key_normalized h _ Hwf), normalizeHeaderName_lowercase in Hown.
  discriminate.
Qed.

Lemma wf_new : wf new.
Proof. by split; simpl; try constructor; intros *; rewrite ?lookup_empty; try intros ? []. Qed.

Lemma wf_stored_state h k name v :
  wf h → normalizeHeaderName name = Normal k → wf (stored h k name v).
Proof.
  intros Hwf Hk. split; simpl.
  - intros k'. rewrite hasOwn_assign, lookup_insert.
    destruct (decide (k = k')); [by eauto|]. apply Hwf.
  - intros k' r. rewrite lookup_insert.
    destruct (decide (k = k')) as [<-|]; [by intros [= <-]|]. apply Hwf.
  - intros k' Hproto. rewrite hasOwn_assign, lookup_insert.
    destruct (decide (k = k')) as [<-|]; [|by apply Hwf].
    intros _. rewrite bool_decide_eq_false_2 by done. apply orb_true_r.
  - rewrite hasOwn_assign.
    destruct (decide (k = "__proto__")) as [->|]; [|apply Hwf].
    by rewrite (wf_proto h Hwf).
  - apply assign_NoDup, Hwf.
Qed.

Lemma wf_removed_state h k : wf h → wf (removed h k).
Proof.
  intros Hwf. split; simpl.
  - intros k'. rewrite hasOwn_remove, lookup_delete.
    destruct (decide (k = k')); [done|]. apply Hwf.
  - intros k' r. rewrite lookup_delete.
    destruct (decide (k = k')); [done|]. apply Hwf.
  - intros k' Hproto. rewrite hasOwn_remove, lookup_delete.
    destruct (decide (k = k')); [by intros []|]. by apply Hwf.
  - rewrite hasOwn_remove. destruct (decide _); [done|]. apply Hwf.
  - apply remove_NoDup, Hwf.
Qed.

Lemma wf_set h name value r h' :
  wf h → set name value h = (r, h') → wf h'.
Proof.
  intros Hwf. rewrite set_run.
  destruct (normalizeHeaderName name) as [k|] eqn:Hk; [|by intros [= _ <-]].
  destruct (normalizeHeaderValue value) as [v|]; intros [= _ <-];
    auto using wf_stored_state.
Qed.

Lemma wf_append h name value r h' :
  wf h → append name value h = (r, h') → wf h'.
Proof.
  intros Hwf. rewrite append_run.
  destruct (normalizeHeaderName name) as [k|]; [|by intros [= _ <-]].
  rewrite (wf_callable h Hwf). eauto using wf_set.
Qed.

Lemma wf_delete h name r h' :
  wf h → delete name h = (r, h') → wf h'.
Proof.
  intros Hwf. rewrite delete_run.
  destruct (normalizeHeaderName name) as [k|]; [|by intros [= _ <-]].
  rewrite (wf_callable h Hwf).
  destruct (JsObject.hasOwn (headers h) k); intros [= _ <-];
    auto using wf_removed_state.
Qed.

Lemma wf_mutate h c r h' : wf h → mutate c h = (r, h') → wf h'.
Proof. destruct c; simpl; eauto using wf_set, wf_append, wf_delete. Qed.

Lemma wf_Array_forEach {A} (callback : A → M unit) l :
  (∀ x h r h', wf h → callback x h = (r, h') → wf h') →
  ∀ h r h', wf h → Array_forEach l callback h = (r, h') → wf h'.
Proof.
  intros Hcb. induction l as [|x l IH]; simpl; intros h r h' Hwf.
  - by intros [= _ <-].
  - rewrite bind_run. destruct (callback x h) as [[[]|e] h1] eqn:Hx.
    + apply IH. eauto.
    + intros [= _ <-]. eauto.
Qed.

Lemma wf_constructor init h : constructor init = Normal h → wf h.
Proof.
  unfold constructor.
  destruct (constructor_body init new) as [[[]|e] h1] eqn:Hbody; intros [= <-].
  revert Hbody. unfold constructor_body. rewrite bind_run. unfold lift.
  destruct (headers_shaped init); [|done].
  destruct init as [calls|l|proto o|]; simpl.
  - apply wf_Array_forEach; [|apply wf_new].
    intros [value name] h0 r h'. apply wf_append.
  - apply wf_Array_forEach; [|apply wf_new].
    intros [name value] h0 r h'. apply wf_append.
  - apply wf_Array_forEach; [|apply wf_new].
    intros [name value] h0 r h'. apply wf_append.
  - intros [= <-]. apply wf_new.
Qed.

Lemma reachable_wf h : reachable h → wf h.
Proof. induction 1; eauto using wf_constructor, wf_mutate. Qed.

End Invariant.

(** * Failure atomicity *)

(** C10. When a call of [set], [append] or [delete] throws (an
    InvalidHeaderName or InvalidHeaderValue raised by normalization, or
    anything else), both [headers] and [names] are exactly as they were
    before the call: every statement that can throw comes before the first
    write. *)
Theorem failure_atomicity `{!Normalizers} (c : Mutation) (h h' : state) (e : Error) :
  mutate c h = (Throw e, h') →
  headers h' = headers h ∧ names h' = names h.
Proof.
  assert (∀ name value, set name value h = (Throw e, h') → h' = h) as Hset.
  { intros name value. rewrite set_run.
    destruct (normalizeHeaderName name); [|by intros [= _ <-]].
    destruct (normalizeHeaderValue value); [done|by intros [= _ <-]]. }
  intros Hthrow. enough (h' = h) as -> by done.
  destruct c as [name value|name value|name]; simpl in Hthrow.
  - eauto.
  - rewrite append_run in Hthrow.
    destruct (normalizeHeaderName name); [|by injection Hthrow].
    destruct (JsObject.hasOwn (headers h) "hasOwnProperty");
      [by injection Hthrow|eauto].
  - rewrite delete_run in Hthrow.
    destruct (normalizeHeaderName name); [|by injection Hthrow].
    repeat case_match; by injection Hthrow.
Qed.

Lemma failure_atomicity_witness :
  mutate (Append "Accept" nul_value) one_header
  = (Throw InvalidHeaderValue, one_header)
  ∧ headers one_header = headers one_header
  ∧ names one_header = names one_header.
Proof.
  assert (mutate (Append "Accept" nul_value) one_header
          = (Throw InvalidHeaderValue, one_header)) as Hthrow
    by reflexivity.
  split; [exact Hthrow|].
  exact (failure_atomicity _ _ _ _ Hthrow).
Defined.

(** * Construction from a list of pairs *)

Lemma forEach_pairs_sequential `{!Normalizers} l h :
  match Array_forEach ((λ '(name, value), (name, Single value)) <$> l)
          (λ '(name, value), append name (resolve value)) h with
  | (Normal _, h') => Normal h'
  | (Throw e, _) => Throw e
  end = sequential_appends h l.
Proof.
  revert h. induction l as [|[name value] r IH]; intros h; [done|].
  csimpl. rewrite bind_run.
  destruct (append name value h) as [[[]|e] h1]; [apply IH|done].
Qed.

(** C7. Constructing from a list of [name, value] pairs gives the state that
    an empty map reaches under [append(name, value)] for each pair in list
    order (and the same error when one of them is rejected); constructing
    from [["A","1"],["A","2"]] gives [get("a") == "1, 2"]. *)
Theorem constructor_pair_list :
  (∀ (N : Normalizers) (l : list (string * string)),
     constructor (pair_list l) = sequential_appends new l)
  ∧ (∃ h, constructor (pair_list [("A", "1"); ("A", "2")]) = Normal h
          ∧ sequential_appends new [("A", "1"); ("A", "2")] = Normal h
          ∧ returns (get "a") h (JsString "1, 2")).
Proof.
  split.
  - intros N l. unfold constructor, pair_list, constructor_body.
    rewrite bind_run. simpl. apply forEach_pairs_sequential.
  - eexists. split_and!; reflexivity.
Qed.

(** * Iteration and raw export on reachable instances *)

Section Export_facts.
Context `{!Normalizers}.
Implicit Types (h : state) (name value k v : string).

Lemma for_of_get h (l : list string) :
  Forall (λ k, normalizeHeaderName k = Normal k) l →
  for_of l (λ name, v ← get name; mret (name, v)) h
  = (Normal (entry h <$> l), h).
Proof.
  induction 1 as [|k r Hk _ IH]; [done|].
  cbn [for_of]. rewrite !bind_run, get_run, Hk. cbv beta iota.
  unfold mret at 1, M_ret at 1. by rewrite bind_run, IH.
Qed.

Lemma wf_keys_normalized h :
  wf h → Forall (λ k, normalizeHeaderName k = Normal k) (JsObject.keys (headers h)).
Proof.
  intros Hwf. apply Forall_forall. intros k Hk.
  apply order_elem_of, hasOwn_elem_of in Hk. eauto using wf_key_normalized.
Qed.

Lemma entries_run h :
  wf h → entries h = (Normal (entry h <$> JsObject.keys (headers h)), h).
Proof.
  intros Hwf. unfold entries. rewrite bind_run. unfold this_headers.
  by apply for_of_get, wf_keys_normalized.
Qed.

Lemma raw_run h : wf h → returns raw h (raw_object h).
Proof.
  intros Hwf. unfold returns, raw. by rewrite bind_run, entries_run.
Qed.

End Export_facts.

(** A key that no iteration assigns keeps what the object had for it. *)
Lemma own_foldl_assign_other {V} (f : string → string)
    (es : list (string * V)) (acc : list (string * V)) (r : string) :
  Forall (λ e, f e.1 ≠ r) es →
  JsObject.own
    (foldl (λ o '(name, value), JsObject.assign o (f name) value) acc es) r
  = JsObject.own acc r.
Proof.
  intros Hes. revert acc.
  induction Hes as [|[name value] es Hne _ IH]; intros acc; [done|].
  simpl in *. rewrite IH, own_assign. by rewrite decide_False.
Qed.

(** * Deletion *)

(** C9. For a reachable instance and a valid name with normalized form [k]:
    [delete(name)] leaves the instance unchanged when [has(name)] is false;
    otherwise it removes the entry of [k] from both [headers] and [names];
    and after [set(name, value); delete(name)], [has(name)] is false and
    [raw()] has no entry under any spelling of the name. *)
Theorem delete_symmetry `{!Normalizers} (h : state) (name k : string) :
  reachable h →
  normalizeHeaderName name = Normal k →
  (returns (has name) h false → delete name h = (Normal (), h))
  ∧ (returns (has name) h true →
     ∃ h', delete name h = (Normal (), h')
       ∧ headers h' = JsObject.remove (headers h) k
       ∧ names h' = base.delete k (names h)
       ∧ JsObject.own (headers h') k = None
       ∧ names h' !! k = None)
  ∧ (∀ value h1,
       set name value h = (Normal (), h1) →
       ∃ h2 rawHeaders,
         delete name h1 = (Normal (), h2)
         ∧ returns (has name) h2 false
         ∧ returns raw h2 rawHeaders
         ∧ ∀ spelling, normalizeHeaderName spelling = Normal k →
             JsObject.hasOwn rawHeaders spelling = false).
Proof.
  intros Hwf%reachable_wf Hk. split_and!.
  - unfold returns. rewrite has_run, delete_run, Hk, (wf_callable h Hwf).
    by intros [= ->].
  - unfold returns. rewrite has_run, delete_run, Hk, (wf_callable h Hwf).
    intros [= ->]. eexists. split_and!; [done..| |]; simpl.
    + rewrite own_remove. by case_decide.
    + apply lookup_delete_eq.
  - intros value h1 Hset.
    assert (wf h1) as Hwf1 by eauto using wf_set.
    destruct (delete name h1) as [r h2] eqn:Hdel.
    assert (wf h2) as Hwf2 by eauto using wf_delete.
    assert (r = Normal () ∧ JsObject.hasOwn (headers h2) k = false) as [-> Hgone].
    { revert Hdel. rewrite delete_run, Hk, (wf_callable h1 Hwf1).
      destruct (JsObject.hasOwn (headers h1) k) eqn:Hown; intros [= <- <-];
        [|done].
      split; [done|]. simpl. rewrite hasOwn_remove. by case_decide. }
    exists h2, (raw_object h2). split_and!; [done| |by apply raw_run|].
    + unfold returns. by rewrite has_run, Hk, (wf_callable h2 Hwf2), Hgone.
    + intros spelling Hspelling. apply hasOwn_false.
      unfold raw_object. rewrite own_foldl_assign_other; [done|].
      apply Forall_fmap, Forall_forall. intros k' Hk'. simpl.
      apply order_elem_of, hasOwn_elem_of in Hk'.
      destruct (wf_raw_name h2 Hwf2 k' Hk') as [r' Hr'].
      unfold names_get. rewrite Hr'. simpl. intros ->.
      apply (wf_spelling h2 Hwf2) in Hr'. congruence.
Qed.

Lemma one_header_reachable : reachable one_header.
Proof.
  apply (reachable_mutate new (Set_ "Accept" "text/html") (Normal ()));
    [|reflexivity].
  by apply (reachable_new Absent).
Qed.

Lemma delete_symmetry_witness :
  reachable one_header
  ∧ normalizeHeaderName " ACCEPT " = Normal "accept"
  ∧ returns (has " ACCEPT ") one_header true
  ∧ ∃ h', delete " ACCEPT " one_header = (Normal (), h')
      ∧ headers h' = JsObject.remove (headers one_header) "accept"
      ∧ names h' = base.delete "accept" (names one_header)
      ∧ JsObject.own (headers h') "accept" = None
      ∧ names h' !! "accept" = None.
Proof.
  assert (normalizeHeaderName " ACCEPT " = Normal "accept") as Hk
    by reflexivity.
  assert (returns (has " ACCEPT ") one_header true) as Hhas by reflexivity.
  split_and!; [exact one_header_reachable|exact Hk|exact Hhas|].
  exact (proj1 (proj2 (delete_symmetry one_header " ACCEPT " "accept"
                         one_header_reachable Hk)) Hhas).
Defined.

(** * Construction in general *)

Lemma forEach_sequential `{!Normalizers} {A} (f : A → string * string)
    (l : list A) (h : state) :
  match Array_forEach l (λ x, append (f x).1 (f x).2) h with
  | (Normal _, h') => Normal h'
  | (Throw e, _) => Throw e
  end = sequential_appends h (f <$> l).
Proof.
  revert h. induction l as [|x r IH]; intros h; [done|].
  csimpl. rewrite bind_run. destruct (f x) as [name value]. simpl.
  destruct (append name value h) as [[[]|e] h1]; [apply IH|done].
Qed.

Lemma Array_forEach_ext {A} (f g : A → M unit) (l : list A) (h : state) :
  (∀ x h, f x h = g x h) → Array_forEach l f h = Array_forEach l g h.
Proof.
  intros Hfg. revert h. induction l as [|x r IH]; intros h; [done|].
  cbn [Array_forEach]. rewrite !bind_run, Hfg.
  destruct (g x h) as [[[]|e] h1]; [apply IH|done].
Qed.

(** Every shape is handled as the shape test followed by a sequence of
    [append] calls. *)
Lemma constructor_sequential `{!Normalizers} init :
  constructor init
  = match headers_shaped init with
    | Normal _ => sequential_appends new (appended init)
    | Throw e => Throw e
    end.
Proof.
  unfold constructor, constructor_body. rewrite bind_run. unfold lift.
  destruct (headers_shaped init); [|done].
  destruct init as [calls|l|proto o|]; simpl; [| | |done];
    rewrite <-forEach_sequential;
    match goal with
    | |- context [Array_forEach ?l ?f new] =>
        match goal with
        | |- context [Array_forEach l ?g new] =>
            lazymatch g with
            | f => fail
            | _ => by rewrite (Array_forEach_ext f g) by (by intros [])
            end
        end
    end.
Qed.

(** *** Entries that normalization accepts *)

Lemma define_Forall {V} (P : V → Prop) (o : list (string * V)) k v :
  Forall (λ e, P e.2) o → P v → Forall (λ e, P e.2) (JsObject.define o k v).
Proof.
  intros Ho Hv. induction Ho as [|[k' v'] r Hv' Hr IH]; simpl.
  - by repeat constructor.
  - case_decide; by constructor.
Qed.

Lemma own_Forall {V} (P : V → Prop) (o : list (string * V)) k v :
  Forall (λ e, P e.2) o → JsObject.own o k = Some v → P v.
Proof.
  induction 1 as [|[k' v'] r Hv' _ IH]; simpl; [done|].
  case_decide; [by intros [= <-]|done].
Qed.

Lemma resolved_merged `{!Normalizers} (h : state) (k value : string) :
  resolved h k value = merged h k value.
Proof.
  unfold resolved, merged, JsObject.hasOwn, JsObject.get, or_null.
  destruct (JsObject.own (headers h) k) as [existing|]; [|done].
  simpl. by destruct (decide (existing = "")).
Qed.

(** On a reachable instance, [append] returns when normalization accepts
    the name and the merged value, and stores that value. *)
Lemma append_accepted `{!Normalizers} (h : state) (name value k v : string) :
  wf h →
  normalizeHeaderName name = Normal k →
  normalizeHeaderValue (merged h k value) = Normal v →
  append name value h = (Normal (), stored h k name v).
Proof.
  intros Hwf Hk Hv.
  by rewrite append_run, Hk, (wf_callable h Hwf), set_run, Hk,
    resolved_merged, Hv.
Qed.

Lemma sequential_appends_accepted `{!Normalizers} (l : list (string * string)) :
  ∀ h, wf h → accepts h l = true → ∃ h', sequential_appends h l = Normal h'.
Proof.
  induction l as [|[name value] l IH]; intros h Hwf; simpl.
  - by eexists.
  - destruct (normalizeHeaderName name) as [k|] eqn:Hk; [|done].
    destruct (normalizeHeaderValue (merged h k value)) as [v|] eqn:Hv; [|done].
    rewrite (append_accepted h name value k v) by done.
    apply IH. by apply wf_stored_state.
Qed.

(** Conversely, when the calls return, normalization accepted every
    entry. *)
Lemma sequential_appends_returned `{!Normalizers} (l : list (string * string)) :
  ∀ h h', wf h → sequential_appends h l = Normal h' → accepts h l = true.
Proof.
  induction l as [|[name value] l IH]; intros h h' Hwf; simpl; [done|].
  rewrite append_run.
  destruct (normalizeHeaderName name) as [k|] eqn:Hk; [|done].
  rewrite (wf_callable h Hwf), set_run, Hk, resolved_merged.
  destruct (normalizeHeaderValue (merged h k value)) as [v|] eqn:Hv; [|done].
  apply IH. by apply wf_stored_state.
Qed.

(** The constructor returns only for the initializers of the amended C8:
    the condition there is necessary as well. *)
Lemma constructor_returned `{!Normalizers} (init : HeadersInit) (h : state) :
  constructor init = Normal h →
  (∃ shaped, headers_shaped init = Normal shaped)
  ∧ accepts new (appended init) = true.
Proof.
  rewrite constructor_sequential.
  destruct (headers_shaped init) as [shaped|]; [|done].
  intros Hrun. split; [by eexists|].
  by eapply sequential_appends_returned; [apply wf_new|].
Qed.

(** C8, as amended. The constructor returns an instance, without raising,
    for every initializer of the four shapes whose [constructor] property
    the shape test can read (a header bag, a list, an absent initializer, a
    record that has a prototype or an own property of that name) and whose
    entries normalization accepts: each name, and each value as [append]
    merges it with the value stored under the name by then. *)
Theorem constructor_accepted_entries `{!Normalizers} (init : HeadersInit) :
  (∃ shaped, headers_shaped init = Normal shaped) →
  accepts new (appended init) = true →
  ∃ h, constructor init = Normal h.
Proof.
  intros [shaped Hshaped] Haccepts.
  rewrite constructor_sequential, Hshaped.
  by apply sequential_appends_accepted; [apply wf_new|].
Qed.

Lemma constructor_accepted_entries_witness :
  (∃ shaped, headers_shaped record_init = Normal shaped)
  ∧ accepts new (appended record_init) = true
  ∧ ∃ h, constructor record_init = Normal h.
Proof.
  assert (∃ shaped, headers_shaped record_init = Normal shaped) as Hshaped
    by (by exists false).
  assert (accepts new (appended record_init) = true) as Haccepts
    by reflexivity.
  split_and!; [exact Hshaped|exact Haccepts|].
  exact (constructor_accepted_entries record_init Hshaped Haccepts).
Defined.

(** X5. An entry whose name is rejected makes the constructor throw,
    whatever the shape of the initializer. *)
Lemma constructor_rejected_name `{!Normalizers} (init : HeadersInit) :
  Exists (λ e, ∃ err, normalizeHeaderName e.1 = Throw err) (appended init) →
  ∃ err, constructor init = Throw err.
Proof.
  rewrite constructor_sequential. intros Hrejected.
  destruct (headers_shaped init); [|by eauto]. generalize new.
  induction Hrejected as [[name value] l [err Herr]|[name value] l _ IH];
    intros h; simpl.
  - rewrite append_run. simpl in Herr. rewrite Herr. eauto.
  - destruct (append name value h) as [[[]|e] h1]; eauto.
Qed.

(** C8 as stated fails: a list initializer with a name that holds a space
    makes the constructor throw InvalidHeaderName; a record initializer with
    a value that holds a NUL character makes it throw InvalidHeaderValue;
    and a record without prototype makes it throw a TypeError, though
    normalization accepts its one entry. *)
Lemma constructor_throws_on_bad_name :
  @constructor spec_normalizers (FromList [("bad name", Single "v")])
  = Throw InvalidHeaderName
  ∧ (¬ ∃ h, @constructor spec_normalizers (FromList [("bad name", Single "v")])
            = Normal h)
  ∧ @constructor spec_normalizers
      (FromObject ObjectPrototype [("X", Single nul_value)])
    = Throw InvalidHeaderValue
  ∧ @constructor spec_normalizers
      (FromObject NoPrototype [("Accept", Single "text/html")])
    = Throw TypeError.
Proof. split_and!; [reflexivity| |reflexivity..]. by intros [h Hh]. Qed.

(** * Iteration order *)

Section Order_facts.
Context `{!Normalizers}.
Implicit Types (h : state) (c : Mutation).

Lemma filter_absent (k : string) (l : list string) :
  k ∉ l → filter (λ k', k' ≠ k) l = l.
Proof.
  induction l as [|k' r IH]; [done|].
  intros [Hne Hr]%not_elem_of_cons.
  rewrite filter_cons_True by done. by rewrite IH.
Qed.

Lemma stored_names h k name v :
  k ≠ "__proto__" →
  (headers (stored h k name v)).*1
  = if bool_decide (k ∈ (headers h).*1) then (headers h).*1
    else (headers h).*1 ++ [k].
Proof.
  intros Hproto. simpl. rewrite assign_names.
  rewrite (bool_decide_eq_false_2 (k = "__proto__")), orb_false_r by done.
  destruct (JsObject.hasOwn (headers h) k) eqn:Hown.
  - by rewrite bool_decide_eq_true_2 by by apply hasOwn_elem_of.
  - rewrite bool_decide_eq_false_2; [done|].
    rewrite <-hasOwn_elem_of. congruence.
Qed.

Lemma set_names h name value k h' :
  normalizeHeaderName name = Normal k → k ≠ "__proto__" →
  set name value h = (Normal (), h') →
  (headers h').*1
  = if bool_decide (k ∈ (headers h).*1) then (headers h).*1
    else (headers h).*1 ++ [k].
Proof.
  intros Hk Hproto. rewrite set_run, Hk.
  destruct (normalizeHeaderValue value); [|done].
  intros [= <-]. by apply stored_names.
Qed.

(** One successful call changes the creation order as the claim's order. *)
Lemma mutate_names h c h' :
  wf h →
  normalizeHeaderName (mutation_name c) ≠ Normal "__proto__" →
  mutate c h = (Normal (), h') →
  (headers h').*1 = first_insertion_step (headers h).*1 c.
Proof.
  intros Hwf Hproto. unfold first_insertion_step.
  destruct c as [name value|name value|name]; simpl in *.
  - destruct (normalizeHeaderName name) as [k|e] eqn:Hk.
    + apply set_names; congruence.
    + by rewrite set_run, Hk.
  - rewrite append_run.
    destruct (normalizeHeaderName name) as [k|e] eqn:Hk; [|done].
    rewrite (wf_callable h Hwf). apply set_names; congruence.
  - rewrite delete_run.
    destruct (normalizeHeaderName name) as [k|e] eqn:Hk; [|done].
    rewrite (wf_callable h Hwf).
    destruct (JsObject.hasOwn (headers h) k) eqn:Hown; intros [= <-]; simpl.
    + apply remove_names.
    + symmetry. apply filter_absent. rewrite <-hasOwn_elem_of. congruence.
Qed.

Lemma run_names calls : ∀ h h',
  wf h →
  Forall (λ c, normalizeHeaderName (mutation_name c) ≠ Normal "__proto__") calls →
  Array_forEach calls mutate h = (Normal (), h') →
  (headers h').*1 = foldl first_insertion_step (headers h).*1 calls.
Proof.
  induction calls as [|c calls IH]; intros h h' Hwf Hcalls.
  - by intros [= <-].
  - apply Forall_cons in Hcalls as [Hc Hcalls].
    cbn [Array_forEach]. rewrite bind_run.
    destruct (mutate c h) as [[[]|e] h1] eqn:Hrun; [|done].
    intros Hrest. simpl. rewrite <-(mutate_names h c h1) by done.
    apply IH; eauto using wf_mutate.
Qed.

Lemma values_run h :
  returns values h (JsObject.values (headers h)).
Proof. done. Qed.

Lemma values_own {V} (o : list (string * V)) :
  Forall2 (λ k v, JsObject.own o k = Some v) (JsObject.keys o) (JsObject.values o).
Proof.
  unfold JsObject.values.
  assert (Forall (λ k, is_Some (JsObject.own o k)) (JsObject.keys o)) as Hkeys.
  { apply Forall_forall. intros k Hk.
    by apply hasOwn_true, hasOwn_elem_of, order_elem_of. }
  induction Hkeys as [|k ks [v Hv] _ IH]; simpl; [constructor|].
  rewrite Hv. by constructor.
Qed.

End Order_facts.

(** C6, as amended. After any sequence of successful calls on a new
    instance (none of them naming [__proto__]), [keys()], [entries()] and
    [values()] enumerate the stored names that are array indices (canonical
    decimal integers below 2^32 - 1) first, in ascending numeric order, and
    then all other stored names in the order they were first inserted, which
    is the whole order when no stored name is an array index; a later [set]
    on a name already present overwrites its value and moves no name. *)
Theorem iteration_order `{!Normalizers} (calls : list Mutation) (h : state) :
  Array_forEach calls mutate new = (Normal (), h) →
  Forall (λ c, normalizeHeaderName (mutation_name c) ≠ Normal "__proto__") calls →
  ∃ indices others,
    Forall (λ k, JsObject.is_index k = true) indices
    ∧ Sorted index_le indices
    ∧ indices ≡ₚ filter (λ k, JsObject.is_index k = true)
                   (first_insertion_order calls)
    ∧ others = filter (λ k, JsObject.is_index k = false)
                 (first_insertion_order calls)
    ∧ returns keys h (indices ++ others)
    ∧ (∃ es, returns entries h es ∧ es.*1 = indices ++ others)
    ∧ (∃ vs, returns values h vs
             ∧ Forall2 (λ k v, JsObject.own (headers h) k = Some v)
                 (indices ++ others) vs)
    ∧ (Forall (λ k, JsObject.is_index k = false) (first_insertion_order calls) →
       returns keys h (first_insertion_order calls))
    ∧ (∀ name value k h',
         normalizeHeaderName name = Normal k →
         returns (has name) h true →
         set name value h = (Normal (), h') →
         returns keys h' (indices ++ others)
         ∧ ∃ v, normalizeHeaderValue value = Normal v
                ∧ JsObject.own (headers h') k = Some v).
Proof.
  intros Hrun Hcalls.
  assert (wf h) as Hwf.
  { eapply (wf_Array_forEach mutate calls); [|apply wf_new|done].
    intros *. apply wf_mutate. }
  pose proof (run_names calls new h wf_new Hcalls Hrun) as Hnames.
  change (foldl first_insertion_step (headers new).*1 calls)
    with (first_insertion_order calls) in Hnames.
  assert (JsObject.keys (headers h)
          = JsObject.sort_indices
              (filter (λ k, JsObject.is_index k = true) (first_insertion_order calls))
            ++ filter (λ k, JsObject.is_index k = false) (first_insertion_order calls))
    as Hkeys by (by unfold JsObject.keys, JsObject.order; rewrite Hnames).
  exists (JsObject.sort_indices
            (filter (λ k, JsObject.is_index k = true) (first_insertion_order calls))),
    (filter (λ k, JsObject.is_index k = false) (first_insertion_order calls)).
  split_and!.
  - apply Forall_forall. intros k.
    rewrite sort_indices_perm, list_elem_of_filter. by intros [? _].
  - apply sort_indices_sorted.
  - apply sort_indices_perm.
  - done.
  - unfold returns, keys. rewrite bind_run. simpl. by rewrite Hkeys.
  - eexists. split; [by apply entries_run|].
    rewrite <-Hkeys, <-list_fmap_compose. apply list_fmap_id.
  - eexists. split; [apply values_run|].
    rewrite <-Hkeys. apply values_own.
  - intros Hnone. unfold returns, keys. rewrite bind_run. simpl.
    unfold JsObject.keys. by rewrite Hnames, order_no_index.
  - intros name value k h' Hk Hhas. unfold returns in Hhas.
    rewrite has_run, Hk, (wf_callable h Hwf) in Hhas.
    injection Hhas as Hown.
    rewrite set_run, Hk.
    destruct (normalizeHeaderValue value) as [v|]; [|done].
    intros [= <-]. split.
    + unfold returns, keys. rewrite bind_run. simpl.
      unfold JsObject.keys. by rewrite assign_names, Hown, <-Hkeys.
    + exists v. split; [done|]. simpl.
      rewrite own_assign, Hown. by case_decide.
Qed.

Lemma iteration_order_witness :
  Array_forEach overwrite_calls mutate new = (Normal (), overwritten)
  ∧ Forall (λ c, normalizeHeaderName (mutation_name c) ≠ Normal "__proto__")
      overwrite_calls
  ∧ first_insertion_order overwrite_calls = ["a"; "b"]
  ∧ returns keys overwritten ["a"; "b"].
Proof.
  assert (Array_forEach overwrite_calls mutate new = (Normal (), overwritten))
    as Hrun by reflexivity.
  assert (Forall (λ c, normalizeHeaderName (mutation_name c) ≠ Normal "__proto__")
            overwrite_calls) as Hcalls by (by repeat constructor).
  split_and!; [exact Hrun|exact Hcalls|reflexivity|].
  destruct (iteration_order overwrite_calls overwritten Hrun Hcalls)
    as (indices & others & _ & _ & _ & _ & _ & _ & _ & Hinserted & _).
  apply Hinserted. by repeat constructor.
Defined.

(** C6 as stated fails: the name ["1"], inserted after ["b"], is enumerated
    before it. *)
Lemma keys_not_in_insertion_order :
  ∃ h, Array_forEach [Set_ "b" "1"; Set_ "1" "2"] mutate new = (Normal (), h)
       ∧ first_insertion_order [Set_ "b" "1"; Set_ "1" "2"] = ["b"; "1"]
       ∧ returns keys h ["1"; "b"]
       ∧ returns entries h [("1", JsString "2"); ("b", JsString "1")]
       ∧ ¬ returns keys h (first_insertion_order [Set_ "b" "1"; Set_ "1" "2"]).
Proof. eexists. split_and!; [reflexivity..|]. by intros [=]. Qed.

(** * Append *)

(** C3, as amended. For a reachable instance and a valid name whose
    normalized form [k] is not [__proto__]: [append(name, value)] stores the
    normalized form of [value] when [k] has no entry, and the normalized form
    of the existing value, [", "] and [value] when [k] has a non-empty
    entry, provided value normalization accepts that string; it records
    [name] as the raw spelling, and [get] under any spelling of the name
    then returns the stored value when it is not empty. *)
Theorem append_merge `{!Normalizers} (h : state) (name value k v : string) :
  reachable h →
  normalizeHeaderName name = Normal k →
  k ≠ "__proto__" →
  JsObject.own (headers h) k ≠ Some "" →
  normalizeHeaderValue
    (match JsObject.own (headers h) k with
     | None => value
     | Some existing => existing +:+ ", " +:+ value
     end) = Normal v →
  ∃ h', append name value h = (Normal (), h')
        ∧ JsObject.own (headers h') k = Some v
        ∧ names h' !! k = Some name
        ∧ ∀ spelling, normalizeHeaderName spelling = Normal k → v ≠ "" →
            returns (get spelling) h' (JsString v).
Proof.
  intros Hwf%reachable_wf Hk Hproto Hnonempty Hv.
  assert (resolved h k value
          = match JsObject.own (headers h) k with
            | None => value
            | Some existing => existing +:+ ", " +:+ value
            end) as Hres.
  { unfold resolved, JsObject.hasOwn, JsObject.get, or_null.
    destruct (JsObject.own (headers h) k) as [existing|]; [|done].
    simpl. by rewrite decide_False by congruence. }
  exists (stored h k name v). split_and!.
  - by rewrite append_run, Hk, (wf_callable h Hwf), set_run, Hk, Hres, Hv.
  - simpl. rewrite own_assign, decide_True by done.
    destruct (JsObject.hasOwn (headers h) k); [done|]. by rewrite decide_False.
  - apply lookup_insert_eq.
  - intros spelling Hspelling Hne. by apply get_stored.
Qed.

Lemma one_value_reachable : reachable one_value.
Proof.
  apply (reachable_mutate new (Append "X" "a") (Normal ())); [|reflexivity].
  by apply (reachable_new Absent).
Qed.

(** [append("X","a")] then [append("x","b")] on an empty map makes
    [get("X")] return ["a, b"]. *)
Lemma append_merge_witness :
  append "X" "a" new = (Normal (), one_value)
  ∧ ∃ h', append "x" "b" one_value = (Normal (), h')
          ∧ JsObject.own (headers h') "x" = Some "a, b"
          ∧ names h' !! "x" = Some "x"
          ∧ returns (get "X") h' (JsString "a, b").
Proof.
  split; [reflexivity|].
  destruct (append_merge one_value "x" "b" "x" "a, b" one_value_reachable)
    as (h' & Happend & Hown & Hname & Hget); [reflexivity|done|done|reflexivity|].
  exists h'. split_and!; [exact Happend|exact Hown|exact Hname|].
  apply Hget; [reflexivity|done].
Defined.

(** C3 as stated fails, in two ways.  The stored value is the normalized
    one: [append("X", " a ")] on an empty map stores ["a"].  And an existing
    empty value is merged as the text [null]: after [append("X", "")],
    [append("X", "b")] stores ["null, b"], not [", b"]. *)
Lemma append_not_as_stated :
  ¬ append_stores_as_stated new "X" " a "
  ∧ append "X" "" new = (Normal (), empty_value)
  ∧ ¬ append_stores_as_stated empty_value "X" "b"
  ∧ ∃ h', append "X" "b" empty_value = (Normal (), h')
          ∧ JsObject.own (headers h') "x" = Some "null, b".
Proof.
  split_and!.
  - intros Hstated. by specialize (Hstated "x" _ eq_refl eq_refl).
  - reflexivity.
  - intros Hstated. by specialize (Hstated "x" _ eq_refl eq_refl).
  - by eexists.
Qed.

(** * The two fields side by side *)

(** X1. On every reachable instance the keys of [headers] are the keys of
    [names] other than [__proto__]. *)
Lemma lockstep_but_proto `{!Normalizers} (h : state) :
  reachable h →
  list_to_set (headers h).*1 =@{gset string} dom (names h) ∖ {["__proto__"]}.
Proof.
  intros Hwf%reachable_wf. apply set_eq. intros k.
  rewrite elem_of_list_to_set, <-hasOwn_elem_of, elem_of_difference,
    elem_of_dom, not_elem_of_singleton.
  split.
  - intros Hown. split; [by apply Hwf|]. intros ->.
    by rewrite (wf_proto h Hwf) in Hown.
  - intros [Hname Hproto]. by apply Hwf.
Qed.

(** C1 on the code: [set("__proto__", "x")] on a new instance returns, and
    leaves a key in [names] that [headers] does not have, since the
    assignment [this.headers["__proto__"] = "x"] creates no property. *)
Theorem lockstep_broken_by_proto :
  set "__proto__" "x" new = (Normal (), proto_named)
  ∧ reachable proto_named
  ∧ returns (has "__proto__") proto_named false
  ∧ names proto_named !! "__proto__" = Some "__proto__"
  ∧ ¬ lockstep proto_named.
Proof.
  assert (set "__proto__" "x" new = (Normal (), proto_named)) as Hset
    by reflexivity.
  split_and!; [done| |done|done|].
  - apply (reachable_mutate new (Set_ "__proto__" "x") (Normal ())); [|done].
    by apply (reachable_new Absent).
  - unfold lockstep. simpl. rewrite dom_singleton_L. set_solver.
Qed.

(** * Lookup *)

(** X3. For a valid name, [get] returns without throwing, whatever the
    instance: the stored value when it is not empty, and [null] when there is
    no entry and the name is not one [Object.prototype] defines. *)
Lemma get_valid_name `{!Normalizers} (h : state) (name k : string) :
  normalizeHeaderName name = Normal k →
  ∃ r, returns (get name) h r
       ∧ (∀ v, JsObject.own (headers h) k = Some v → v ≠ "" → r = JsString v)
       ∧ (JsObject.own (headers h) k = None → JsObject.inherited k = false →
          r = JsNull).
Proof.
  intros Hk. eexists. unfold returns. rewrite get_run, Hk.
  split_and!; [done|..]; unfold JsObject.get, or_null.
  - intros v -> Hv. simpl. by rewrite decide_False.
  - by intros -> ->.
Qed.

Lemma get_valid_name_witness :
  normalizeHeaderName "ACCEPT" = Normal "accept"
  ∧ ∃ r, returns (get "ACCEPT") one_header r ∧ r = JsString "text/html".
Proof.
  assert (normalizeHeaderName "ACCEPT" = Normal "accept") as Hk by reflexivity.
  split; [exact Hk|].
  destruct (get_valid_name one_header "ACCEPT" "accept" Hk)
    as (r & Hget & Hstored & _).
  exists r. split; [exact Hget|]. by apply Hstored.
Defined.

(** X2. [set] under one spelling, then [get] under another spelling of the
    same name, returns the stored normalized value, when that value is not
    empty and the name is not [__proto__]. *)
Lemma set_then_get `{!Normalizers} (h : state) (n1 n2 k value v : string) :
  normalizeHeaderName n1 = Normal k →
  normalizeHeaderName n2 = Normal k →
  normalizeHeaderValue value = Normal v →
  k ≠ "__proto__" →
  v ≠ "" →
  ∃ h', set n1 value h = (Normal (), h')
        ∧ JsObject.own (headers h') k = Some v
        ∧ returns (get n2) h' (JsString v).
Proof.
  intros Hn1 Hn2 Hv Hproto Hne. exists (stored h k n1 v).
  split; [by rewrite set_run, Hn1, Hv|]. by apply get_stored.
Qed.

Lemma set_then_get_witness :
  normalizeHeaderName "Content-Type" = Normal "content-type"
  ∧ normalizeHeaderName "  CONTENT-type " = Normal "content-type"
  ∧ normalizeHeaderValue " text/plain " = Normal "text/plain"
  ∧ ∃ h', set "Content-Type" " text/plain " one_header = (Normal (), h')
          ∧ JsObject.own (headers h') "content-type" = Some "text/plain"
          ∧ returns (get "  CONTENT-type ") h' (JsString "text/plain").
Proof.
  split_and!; [reflexivity..|].
  apply (set_then_get one_header "Content-Type" "  CONTENT-type "
           "content-type" " text/plain " "text/plain");
    reflexivity || done.
Defined.

(** Names that differ only in case or in surrounding whitespace have the
    same normalized form under the normalizer of the specification. *)
Lemma token_char_lower_iff c : is_token_char (lower_char c) = is_token_char c.
Proof. by destruct c as [[] [] [] [] [] [] [] []]. Qed.

Lemma all_token_chars_lowercase s :
  all_chars is_token_char (lowercase s) = all_chars is_token_char s.
Proof.
  induction s as [|c r IH]; simpl; [done|].
  by rewrite token_char_lower_iff, IH.
Qed.

Lemma spec_normalizeHeaderName_spellings n1 n2 k :
  lowercase (trim n1) = lowercase (trim n2) →
  spec_normalizeHeaderName n1 = Normal k →
  spec_normalizeHeaderName n2 = Normal k.
Proof.
  intros Hsame (-> & Hne & Htok)%spec_normalizeHeaderName_inv.
  unfold spec_normalizeHeaderName.
  rewrite <-all_token_chars_lowercase, <-Hsame, all_token_chars_lowercase, Htok.
  rewrite bool_decide_eq_false_2; [by rewrite Hsame|].
  intros Hempty. rewrite Hempty in Hsame. by destruct (trim n1).
Qed.

(** X7. With the normalizers of the specification: [set] under a valid
    name, then [get] under a name that differs from it only in case or in
    surrounding whitespace, returns the stored normalized value, when that
    value is not empty and the name is not [__proto__]. *)
Lemma set_then_get_spellings (h : state) (n1 n2 k value v : string) :
  lowercase (trim n1) = lowercase (trim n2) →
  spec_normalizeHeaderName n1 = Normal k →
  spec_normalizeHeaderValue value = Normal v →
  k ≠ "__proto__" →
  v ≠ "" →
  ∃ h', @set spec_normalizers n1 value h = (Normal (), h')
        ∧ returns (@get spec_normalizers n2) h' (JsString v).
Proof.
  intros Hsame Hn1 Hv Hproto Hne.
  pose proof (spec_normalizeHeaderName_spellings n1 n2 k Hsame Hn1) as Hn2.
  exists (stored h k n1 v). split.
  - rewrite set_run. simpl. by rewrite Hn1, Hv.
  - by apply (get_stored h n1 n2 k v).
Qed.

Lemma set_then_get_spellings_witness :
  lowercase (trim "ETag") = lowercase (trim "  etag ")
  ∧ ∃ h', set "ETag" "W/1" new = (Normal (), h')
          ∧ returns (get "  etag ") h' (JsString "W/1").
Proof.
  split; [reflexivity|].
  apply (set_then_get_spellings new "ETag" "  etag " "etag" "W/1" "W/1");
    reflexivity || done.
Defined.

(** C2 on the code: the empty string is a valid value, [set("X-Token", "")]
    stores it, and [get] under another spelling of the name returns [null]
    instead of the stored value. *)
Theorem set_then_get_empty_value :
  lowercase (trim "X-Token") = lowercase (trim " x-token ")
  ∧ normalizeHeaderValue "" = Normal ""
  ∧ set "X-Token" "" new = (Normal (), empty_token)
  ∧ JsObject.own (headers empty_token) "x-token" = Some ""
  ∧ returns (get " x-token ") empty_token JsNull.
Proof. by split_and!. Qed.

(** C4 on the code: an entry whose stored value is the empty string exists
    ([has] is true) and [get] returns [null] for it; and for the absent name
    [constructor], [get] returns the inherited member of [Object.prototype]
    instead of [null]. *)
Theorem get_of_empty_and_inherited :
  returns (has "X-Token") empty_token true
  ∧ JsObject.own (headers empty_token) "x-token" = Some ""
  ∧ returns (get "X-Token") empty_token JsNull
  ∧ returns (has "constructor") new false
  ∧ returns (get "constructor") new (JsProtoMember "constructor").
Proof. by split_and!. Qed.

(** * Raw export *)

Section Raw_facts.
Context `{!Normalizers}.
Implicit Types (h : state) (name k v : string).

(** Two stored names never share a raw spelling. *)
Lemma wf_names_get_inj h k k' :
  wf h →
  JsObject.hasOwn (headers h) k = true →
  JsObject.hasOwn (headers h) k' = true →
  names_get (names h) k = names_get (names h) k' → k = k'.
Proof.
  intros Hwf [r Hr]%(wf_raw_name h Hwf) [r' Hr']%(wf_raw_name h Hwf).
  unfold names_get. rewrite Hr, Hr'. simpl. intros <-.
  apply (wf_spelling h Hwf) in Hr, Hr'. congruence.
Qed.

(** [raw()] has the stored header [k] under its recorded spelling, and
    under no other spelling of the name. *)
Lemma raw_object_entry h k name v :
  wf h →
  names h !! k = Some name →
  JsObject.own (headers h) k = Some v →
  name ≠ "__proto__" →
  JsObject.own (raw_object h) name = Some (or_null (JsString v))
  ∧ ∀ spelling, spelling ≠ name → normalizeHeaderName spelling = Normal k →
      JsObject.own (raw_object h) spelling = None.
Proof.
  intros Hwf Hname Hown Hproto.
  assert (JsObject.hasOwn (headers h) k = true) as Hhas
    by (apply hasOwn_true; eauto).
  assert (∀ k', k' ∈ JsObject.keys (headers h) →
                JsObject.hasOwn (headers h) k' = true) as Hkeys.
  { intros k' Hk'. by apply hasOwn_elem_of, order_elem_of. }
  assert (names_get (names h) k = name) as Hget
    by (unfold names_get; by rewrite Hname).
  split.
  - assert (k ∈ JsObject.keys (headers h)) as Hin
      by by apply order_elem_of, hasOwn_elem_of.
    pose proof (order_NoDup _ (wf_NoDup h Hwf)) as Hnodup.
    fold (JsObject.keys (headers h)) in Hnodup.
    unfold raw_object.
    apply list_elem_of_split in Hin as (l1 & l2 & Hsplit).
    rewrite Hsplit in Hnodup, Hkeys |- *.
    apply NoDup_app in Hnodup as (_ & _ & [Hl2 _]%NoDup_cons).
    rewrite fmap_app, fmap_cons, foldl_app. cbn [foldl].
    rewrite <-Hget at 1. rewrite own_foldl_assign_other.
    + cbn [entry]. rewrite own_assign, decide_True, Hget by done.
      unfold JsObject.get. rewrite Hown.
      destruct (JsObject.hasOwn (foldl _ _ _) _); [done|].
      by rewrite decide_False.
    + apply Forall_fmap, Forall_forall. intros k' Hk'. simpl.
      intros Heq. apply wf_names_get_inj in Heq; [by subst|done|..].
      * apply Hkeys. set_solver.
      * done.
  - intros spelling Hother Hspelling. unfold raw_object.
    rewrite own_foldl_assign_other; [done|].
    apply Forall_fmap, Forall_forall. intros k' Hk'%Hkeys. simpl.
    destruct (wf_raw_name h Hwf k' Hk') as [r' Hr'].
    unfold names_get. rewrite Hr'. simpl. intros ->.
    pose proof (wf_spelling h Hwf _ _ Hr') as Hnorm.
    assert (k' = k) as -> by congruence. congruence.
Qed.

End Raw_facts.

(** X4. After a successful [set] or [append] under the spelling [name],
    [raw()] has one entry for that header: it is keyed by [name] and holds
    the stored value, when that value is not empty and [name] is not
    [__proto__]; no other spelling of the name is a key. *)
Lemma raw_last_spelling `{!Normalizers}
    (h h' : state) (c : Mutation) (name value k v : string) :
  reachable h →
  c = Set_ name value ∨ c = Append name value →
  mutate c h = (Normal (), h') →
  normalizeHeaderName name = Normal k →
  JsObject.own (headers h') k = Some v →
  v ≠ "" →
  name ≠ "__proto__" →
  ∃ rawHeaders,
    returns raw h' rawHeaders
    ∧ JsObject.own rawHeaders name = Some (JsString v)
    ∧ ∀ spelling, spelling ≠ name → normalizeHeaderName spelling = Normal k →
        JsObject.hasOwn rawHeaders spelling = false.
Proof.
  intros Hwf%reachable_wf Hc Hrun Hk Hown Hv Hname.
  assert (wf h') as Hwf' by eauto using wf_mutate.
  assert (names h' !! k = Some name) as Hraw.
  { assert (∀ value', set name value' h = (Normal (), h') →
                      names h' !! k = Some name) as Hset.
    { intros value'. rewrite set_run, Hk.
      destruct (normalizeHeaderValue value'); [|done].
      intros [= <-]. apply lookup_insert_eq. }
    destruct Hc as [-> | ->]; simpl in Hrun; [by eauto|].
    rewrite append_run, Hk, (wf_callable h Hwf) in Hrun. eauto. }
  destruct (raw_object_entry h' k name v Hwf' Hraw Hown Hname) as [Hentry Hothers].
  exists (raw_object h'). split_and!; [by apply raw_run| |].
  - rewrite Hentry. unfold or_null. simpl. by rewrite decide_False.
  - intros spelling Hne Hspelling. apply hasOwn_false. eauto.
Qed.

Lemma x_foo_first_reachable : reachable x_foo_first.
Proof.
  apply (reachable_mutate new (Append "X-Foo" "a") (Normal ())); [|reflexivity].
  by apply (reachable_new Absent).
Qed.

(** After [append("X-Foo","a")] then [append("x-foo","b")], [raw()] has the
    key ["x-foo"] mapped to ["a, b"], and not the key ["X-Foo"]. *)
Lemma raw_last_spelling_witness :
  append "X-Foo" "a" new = (Normal (), x_foo_first)
  ∧ mutate (Append "x-foo" "b") x_foo_first = (Normal (), x_foo_merged)
  ∧ ∃ rawHeaders,
      returns raw x_foo_merged rawHeaders
      ∧ JsObject.own rawHeaders "x-foo" = Some (JsString "a, b")
      ∧ JsObject.hasOwn rawHeaders "X-Foo" = false.
Proof.
  assert (mutate (Append "x-foo" "b") x_foo_first = (Normal (), x_foo_merged))
    as Hrun by reflexivity.
  split_and!; [reflexivity|exact Hrun|].
  destruct (raw_last_spelling x_foo_first x_foo_merged (Append "x-foo" "b")
              "x-foo" "b" "x-foo" "a, b" x_foo_first_reachable)
    as (rawHeaders & Hraw & Hentry & Hothers);
    [by right|exact Hrun|reflexivity|reflexivity|done|done|].
  exists rawHeaders. split_and!; [exact Hraw|exact Hentry|].
  apply Hothers; [done|reflexivity].
Defined.

(** C5 on the code: after [set("X-Foo", "")], [raw()] maps the key
    ["X-Foo"] to [null] and not to the stored value; and after
    [append("X-Foo", "")] then [append("x-foo", "b")], the value it holds
    under ["x-foo"] is ["null, b"]. *)
Theorem raw_of_empty_value :
  (∃ h, set "X-Foo" "" new = (Normal (), h)
        ∧ JsObject.own (headers h) "x-foo" = Some ""
        ∧ returns raw h [("X-Foo", JsNull)])
  ∧ (∃ h, Array_forEach [Append "X-Foo" ""; Append "x-foo" "b"] mutate new
          = (Normal (), h)
          ∧ returns raw h [("x-foo", JsString "null, b")]).
Proof. split; eexists; by split_and!. Qed.

Lemma lockstep_but_proto_witness :
  reachable proto_named
  ∧ list_to_set (headers proto_named).*1
    =@{gset string} dom (names proto_named) ∖ {["__proto__"]}.
Proof.
  assert (reachable proto_named) as Hreach.
  { apply (reachable_mutate new (Set_ "__proto__" "x") (Normal ()));
      [|reflexivity].
    by apply (reachable_new Absent). }
  split; [exact Hreach|exact (lockstep_but_proto proto_named Hreach)].
Defined.

Lemma constructor_rejected_name_witness :
  Exists (λ e, ∃ err, normalizeHeaderName e.1 = Throw err)
    (appended (FromHeaders [("1", "Accept"); ("2", "bad name")]))
  ∧ ∃ err, constructor (FromHeaders [("1", "Accept"); ("2", "bad name")])
           = Throw err.
Proof.
  assert (Exists (λ e, ∃ err, normalizeHeaderName e.1 = Throw err)
            (appended (FromHeaders [("1", "Accept"); ("2", "bad name")])))
    as Hrejected.
  { apply Exists_cons_tl, Exists_cons_hd. by exists InvalidHeaderName. }
  split; [exact Hrejected|].
  exact (constructor_rejected_name _ Hrejected).
Defined.

(** * No method throws on a valid name *)

(** X6. On a reachable instance, [has] and [delete] return for every valid
    name, and [entries()] and [raw()] return. *)
Lemma reachable_methods_return `{!Normalizers} (h : state) (name k : string) :
  reachable h →
  normalizeHeaderName name = Normal k →
  returns (has name) h (JsObject.hasOwn (headers h) k)
  ∧ (∃ h', delete name h = (Normal (), h'))
  ∧ (∃ es, returns entries h es)
  ∧ (∃ rawHeaders, returns raw h rawHeaders).
Proof.
  intros Hwf%reachable_wf Hk. split_and!.
  - unfold returns. by rewrite has_run, Hk, (wf_callable h Hwf).
  - rewrite delete_run, Hk, (wf_callable h Hwf).
    destruct (JsObject.hasOwn (headers h) k); by eexists.
  - eexists. by apply entries_run.
  - eexists. by apply raw_run.
Qed.

Lemma reachable_methods_return_witness :
  reachable one_header
  ∧ normalizeHeaderName "accept" = Normal "accept"
  ∧ returns (has "accept") one_header true
  ∧ (∃ h', delete "accept" one_header = (Normal (), h'))
  ∧ (∃ es, returns entries one_header es)
  ∧ (∃ rawHeaders, returns raw one_header rawHeaders).
Proof.
  assert (normalizeHeaderName "accept" = Normal "accept") as Hk by reflexivity.
  split_and!; [exact one_header_reachable|exact Hk|..];
    apply (reachable_methods_return one_header "accept" "accept"
             one_header_reachable Hk).
Defined.

(** * More on plain objects *)

Section JsObject_more.
Context {V : Type}.
Implicit Types (o : list (string * V)) (k : string) (v : V).

Lemma define_absent o k v :
  JsObject.hasOwn o k = false → JsObject.define o k v = o ++ [(k, v)].
Proof.
  unfold JsObject.hasOwn.
  induction o as [|[k' v'] r IH]; simpl; [done|].
  destruct (decide (k' = k)); [done|]. intros Hr. by rewrite IH.
Qed.

Lemma hasOwn_define_same o k v :
  JsObject.hasOwn (JsObject.define o k v) k = true.
Proof. unfold JsObject.hasOwn. by rewrite own_define, decide_True. Qed.

Lemma define_define o k v v' :
  JsObject.define (JsObject.define o k v) k v' = JsObject.define o k v'.
Proof.
  induction o as [|[k0 v0] r IH]; simpl.
  - by rewrite decide_True.
  - destruct (decide (k0 = k)); simpl.
    + by rewrite decide_True.
    + by rewrite decide_False, IH.
Qed.

(** A second assignment to the same name replaces the first. *)
Lemma assign_assign o k v v' :
  JsObject.assign (JsObject.assign o k v) k v' = JsObject.assign o k v'.
Proof.
  unfold JsObject.assign at 2 3.
  destruct (JsObject.hasOwn o k) eqn:Hown.
  - unfold JsObject.assign. rewrite hasOwn_define_same. apply define_define.
  - destruct (decide (k = "__proto__")).
    + unfold JsObject.assign. by rewrite Hown, decide_True.
    + unfold JsObject.assign. rewrite hasOwn_define_same. apply define_define.
Qed.

Lemma remove_absent o k :
  JsObject.hasOwn o k = false → JsObject.remove o k = o.
Proof.
  unfold JsObject.hasOwn.
  induction o as [|[k' v'] r IH]; simpl; [done|].
  destruct (decide (k' = k)); [done|]. intros Hr. by rewrite IH.
Qed.

(** Deleting a property that was just created gives the object back. *)
Lemma remove_assign_absent o k v :
  JsObject.hasOwn o k = false →
  JsObject.remove (JsObject.assign o k v) k = o.
Proof.
  intros Hown. unfold JsObject.assign. rewrite Hown.
  destruct (decide (k = "__proto__")) as [|_]; [by apply remove_absent|].
  rewrite define_absent by done.
  induction o as [|[k' v'] r IH]; simpl.
  - by rewrite decide_True.
  - unfold JsObject.hasOwn in *. simpl in Hown.
    destruct (decide (k' = k)); [done|]. by rewrite IH.
Qed.

End JsObject_more.

(** * How the mutating methods compose *)

Lemma overwritten_reachable : reachable overwritten.
Proof.
  apply (reachable_mutate
           {| headers := [("a", "1"); ("b", "2")];
              names := {["a" := "A"; "b" := "B"]} |}
           (Set_ "A" "3") (Normal ())); [|reflexivity].
  apply (reachable_mutate
           {| headers := [("a", "1")]; names := {["a" := "A"]} |}
           (Set_ "B" "2") (Normal ())); [|reflexivity].
  apply (reachable_mutate new (Set_ "A" "1") (Normal ())); [|reflexivity].
  by apply (reachable_new Absent).
Qed.

Lemma empty_value_reachable : reachable empty_value.
Proof.
  apply (reachable_mutate new (Append "X" "") (Normal ())); [|reflexivity].
  by apply (reachable_new Absent).
Qed.


(** X8. A call of [set], [append] or [delete], whether it returns or
    throws, leaves every header other than the one it names as it was: the
    stored value, the recorded spelling, and what [get] returns for it. *)
Lemma mutation_frame `{!Normalizers}
    (c : Mutation) (h h' : state) (r : Completion ()) (k' : string) :
  mutate c h = (r, h') →
  normalizeHeaderName (mutation_name c) ≠ Normal k' →
  JsObject.own (headers h') k' = JsObject.own (headers h) k'
  ∧ names h' !! k' = names h !! k'
  ∧ ∀ spelling, normalizeHeaderName spelling = Normal k' →
      (get spelling h').1 = (get spelling h).1.
Proof.
  intros Hrun Hother.
  assert (JsObject.own (headers h') k' = JsObject.own (headers h) k'
          ∧ names h' !! k' = names h !! k') as [Hown Hname].
  { assert (∀ value, set (mutation_name c) value h = (r, h') →
              JsObject.own (headers h') k' = JsObject.own (headers h) k'
              ∧ names h' !! k' = names h !! k') as Hset.
    { intros value. rewrite set_run.
      destruct (normalizeHeaderName (mutation_name c)) as [k|];
        [|by intros [= _ <-]].
      destruct (normalizeHeaderValue value); intros [= _ <-]; [|done].
      assert (k ≠ k') by congruence. simpl.
      by rewrite own_assign, decide_False, lookup_insert_ne. }
    destruct c as [name value|name value|name]; simpl in *.
    - eauto.
    - rewrite append_run in Hrun.
      destruct (normalizeHeaderName name) as [k|] eqn:Hk;
        [|by injection Hrun as _ <-].
      destruct (JsObject.hasOwn (headers h) "hasOwnProperty");
        [by injection Hrun as _ <-|].
      apply (Hset (resolved h k value)). by rewrite set_run, Hk in *.
    - rewrite delete_run in Hrun.
      destruct (normalizeHeaderName name) as [k|];
        [|by injection Hrun as _ <-].
      assert (k ≠ k') by congruence.
      destruct (JsObject.hasOwn (headers h) "hasOwnProperty");
        [by injection Hrun as _ <-|].
      destruct (JsObject.hasOwn (headers h) k); injection Hrun as _ <-;
        [|done].
      simpl. by rewrite own_remove, decide_False, lookup_delete_ne. }
  split_and!; [done..|].
  intros spelling Hspelling. rewrite !get_run, Hspelling. simpl.
  unfold JsObject.get. by rewrite Hown.
Qed.

Lemma mutation_frame_witness :
  ∃ h', mutate (Set_ "A" "9") overwritten = (Normal (), h')
        ∧ JsObject.own (headers h') "a" = Some "9"
        ∧ JsObject.own (headers h') "b" = JsObject.own (headers overwritten) "b"
        ∧ names h' !! "b" = names overwritten !! "b".
Proof.
  assert (mutate (Set_ "A" "9") overwritten
          = (Normal (), stored overwritten "a" "A" "9")) as Hrun
    by reflexivity.
  assert (normalizeHeaderName (mutation_name (Set_ "A" "9")) ≠ Normal "b")
    as Hother by done.
  eexists. split_and!; [exact Hrun|reflexivity|..];
    apply (mutation_frame _ _ _ _ "b" Hrun Hother).
Defined.

(** X9. The last [set] wins: when [set(n1, v1)] and then [set(n2, v2)]
    return, for two spellings of one name, the instance is the one that
    [set(n2, v2)] alone leaves, position in the iteration order included. *)
Lemma set_overwrites `{!Normalizers}
    (h h1 h2 : state) (n1 n2 k v1 v2 : string) :
  normalizeHeaderName n1 = Normal k →
  normalizeHeaderName n2 = Normal k →
  set n1 v1 h = (Normal (), h1) →
  set n2 v2 h1 = (Normal (), h2) →
  set n2 v2 h = (Normal (), h2).
Proof.
  intros Hn1 Hn2. rewrite !set_run, Hn1, Hn2.
  destruct (normalizeHeaderValue v1) as [v1'|]; [|done]. intros [= <-].
  destruct (normalizeHeaderValue v2) as [v2'|]; [|done]. intros [= <-].
  unfold stored. simpl. by rewrite assign_assign, insert_insert_eq.
Qed.

Lemma set_overwrites_witness :
  ∃ h1 h2,
    set "Accept" "a/b" one_header = (Normal (), h1)
    ∧ set " ACCEPT" "c/d" h1 = (Normal (), h2)
    ∧ set " ACCEPT" "c/d" one_header = (Normal (), h2).
Proof.
  eexists _, _.
  assert (set "Accept" "a/b" one_header
          = (Normal (), stored one_header "accept" "Accept" "a/b")) as H1
    by reflexivity.
  assert (set " ACCEPT" "c/d" (stored one_header "accept" "Accept" "a/b")
          = (Normal (), stored (stored one_header "accept" "Accept" "a/b")
                          "accept" " ACCEPT" "c/d")) as H2
    by reflexivity.
  split_and!; [exact H1|exact H2|].
  exact (set_overwrites _ _ _ "Accept" " ACCEPT" "accept" "a/b" "c/d"
           eq_refl eq_refl H1 H2).
Defined.

(** X10. On a reachable instance, for a valid name other than [__proto__]
    that has no entry, [set(name, value)] followed by [delete(name)] gives
    back exactly the instance there was: both fields, and the order of the
    other headers. *)
Lemma set_delete_restores `{!Normalizers}
    (h h1 : state) (name value k : string) :
  reachable h →
  normalizeHeaderName name = Normal k →
  k ≠ "__proto__" →
  returns (has name) h false →
  set name value h = (Normal (), h1) →
  delete name h1 = (Normal (), h).
Proof.
  intros Hreach Hk Hproto Hhas Hset.
  pose proof (reachable_wf h Hreach) as Hwf.
  assert (wf h1) as Hwf1 by eauto using wf_set.
  unfold returns in Hhas. rewrite has_run, Hk, (wf_callable h Hwf) in Hhas.
  injection Hhas as Hown.
  assert (names h !! k = None) as Hname.
  { destruct (names h !! k) eqn:Hsome; [|done].
    rewrite (wf_stored h Hwf k) in Hown by eauto. done. }
  rewrite set_run, Hk in Hset.
  destruct (normalizeHeaderValue value) as [v|]; [|done].
  injection Hset as <-.
  rewrite delete_run, Hk, (wf_callable _ Hwf1). simpl.
  rewrite hasOwn_assign, decide_True, Hown by done.
  rewrite bool_decide_eq_false_2 by done. simpl.
  unfold removed. simpl.
  rewrite remove_assign_absent, delete_insert_eq, delete_id by done.
  by destruct h.
Qed.

Lemma set_delete_restores_witness :
  reachable one_header
  ∧ returns (has "ETag") one_header false
  ∧ ∃ h1, set "ETag" "W/1" one_header = (Normal (), h1)
          ∧ delete "ETag" h1 = (Normal (), one_header).
Proof.
  assert (returns (has "ETag") one_header false) as Hhas by reflexivity.
  assert (set "ETag" "W/1" one_header
          = (Normal (), stored one_header "etag" "ETag" "W/1")) as Hset
    by reflexivity.
  split_and!; [exact one_header_reachable|exact Hhas|].
  eexists. split; [exact Hset|].
  apply (set_delete_restores one_header _ "ETag" "W/1" "etag"
           one_header_reachable eq_refl); [done|exact Hhas|exact Hset].
Defined.

(** X11. On a reachable instance, [append(name, value)] is
    [set(name, merged)], errors included, where [merged] is [value] when the
    name has no entry, the stored value followed by [", "] and [value] when
    it has a non-empty one, and the text [null] followed by [", "] and
    [value] when the stored value is the empty string. *)
Lemma append_as_set `{!Normalizers} (h : state) (name value k : string) :
  reachable h →
  normalizeHeaderName name = Normal k →
  append name value h
  = set name
      (match JsObject.own (headers h) k with
       | None => value
       | Some existing =>
           (if decide (existing = "") then "null" else existing)
           +:+ ", " +:+ value
       end) h.
Proof.
  intros Hwf%reachable_wf Hk.
  rewrite append_run, Hk, (wf_callable h Hwf). f_equal.
  unfold resolved, JsObject.hasOwn, JsObject.get, or_null.
  destruct (JsObject.own (headers h) k) as [existing|]; [|done].
  simpl. by destruct (decide (existing = "")).
Qed.

Lemma append_as_set_witness :
  reachable empty_value
  ∧ normalizeHeaderName "X" = Normal "x"
  ∧ append "X" "b" empty_value = set "X" "null, b" empty_value.
Proof.
  pose proof empty_value_reachable as Hreach.
  split_and!; [exact Hreach|reflexivity|].
  exact (append_as_set empty_value "X" "b" "x" Hreach eq_refl).
Defined.

(** * What the reading methods return *)

(** The only lower-case names [Object.prototype] defines. *)
Lemma inherited_lowercase (k : string) :
  lowercase k = k →
  JsObject.inherited k = bool_decide (k ∈ ["constructor"; "__proto__"]).
Proof.
  intros Hlow. unfold JsObject.inherited, JsObject.prototype_members.
  apply bool_decide_ext. rewrite !elem_of_cons, !elem_of_nil.
  split; [|tauto].
  intros [->|[->|[->|[->|[->|[->|[->|[->|[->|[->|[->|[->|[]]]]]]]]]]]]];
    try discriminate Hlow; tauto.
Qed.

(** X12. For a valid name with normalized form [k], on any instance, [get]
    returns, and what it returns is: the stored value when it is not empty;
    [null] when the stored value is the empty string; the member of
    [Object.prototype] when [k] has no entry and is [constructor] or
    [__proto__]; and [null] when [k] has no entry otherwise. *)
Lemma get_cases `{!Normalizers} (h : state) (name k : string) :
  normalizeHeaderName name = Normal k →
  returns (get name) h
    (match JsObject.own (headers h) k with
     | Some v => if decide (v = "") then JsNull else JsString v
     | None =>
         if bool_decide (k ∈ ["constructor"; "__proto__"])
         then JsProtoMember k else JsNull
     end).
Proof.
  intros Hk. unfold returns. rewrite get_run, Hk. do 2 f_equal.
  unfold JsObject.get, or_null.
  destruct (JsObject.own (headers h) k) as [v|]; simpl.
  - by destruct (decide (v = "")).
  - rewrite (inherited_lowercase k)
      by eauto using normalizeHeaderName_lowercase.
    by case_bool_decide.
Qed.

Lemma get_cases_witness :
  normalizeHeaderName "Constructor" = Normal "constructor"
  ∧ returns (get "Constructor") one_header (JsProtoMember "constructor").
Proof.
  split; [reflexivity|].
  exact (get_cases one_header "Constructor" "constructor" eq_refl).
Defined.

Lemma for_of_pure {A B} (body : A → M B) (g : A → B) (l : list A) (h : state) :
  Forall (λ x, body x h = (Normal (g x), h)) l →
  for_of l body h = (Normal (g <$> l), h).
Proof.
  induction 1 as [|x r Hx _ IH]; [done|].
  cbn [for_of]. rewrite bind_run, Hx, bind_run, IH. done.
Qed.

Section Own_entries.
Context {V : Type}.
Implicit Types (o : list (string * V)).

Lemma keys_own o :
  Forall (λ k, is_Some (JsObject.own o k)) (JsObject.keys o).
Proof.
  apply Forall_forall. intros k Hk.
  by apply hasOwn_true, hasOwn_elem_of, order_elem_of.
Qed.

Lemma own_entries_names o : (own_entries o).*1 = JsObject.keys o.
Proof.
  unfold own_entries.
  induction (keys_own o) as [|k ks [v Hv] _ IH]; [done|].
  csimpl. rewrite Hv. csimpl. by rewrite IH.
Qed.

Lemma own_entries_values o : (own_entries o).*2 = JsObject.values o.
Proof.
  unfold own_entries, JsObject.values.
  induction (JsObject.keys o) as [|k ks IH]; [done|].
  csimpl. destruct (JsObject.own o k); csimpl; by rewrite IH.
Qed.

End Own_entries.

Section Reading_facts.
Context `{!Normalizers}.
Implicit Types (h : state).

Lemma forEach_run h :
  wf h →
  returns forEach h (callback_arguments <$> own_entries (headers h)).
Proof.
  intros Hwf. unfold returns, forEach. rewrite bind_run. unfold this_headers.
  rewrite bind_run.
  rewrite (for_of_pure _
             (λ name, (λ v, (v, name)) <$> JsObject.own (headers h) name)).
  - unfold mret, M_ret. do 2 f_equal. unfold own_entries.
    induction (JsObject.keys (headers h)) as [|k ks IH]; [done|].
    csimpl. destruct (JsObject.own (headers h) k); csimpl; by rewrite IH.
  - apply Forall_forall. intros name _. rewrite bind_run.
    unfold call_hasOwnProperty. rewrite (wf_callable h Hwf).
    unfold mret, M_ret, JsObject.hasOwn.
    by destruct (JsObject.own (headers h) name).
Qed.

Lemma entries_values h :
  (entry h <$> JsObject.keys (headers h)).*2
  = empty_as_null <$> JsObject.values (headers h).
Proof.
  rewrite <-list_fmap_compose.
  induction (values_own (headers h)) as [|k v ks vs Hv _ IH]; [done|].
  csimpl. rewrite IH. f_equal.
  unfold JsObject.get, empty_as_null. by rewrite Hv.
Qed.

End Reading_facts.

(** X13. On a reachable instance [entries()], and the default iterator with
    it, yield one pair per name of [keys()], in that order, whose second
    component is the corresponding element of [values()], except that an
    empty stored value appears as [null]. *)
Lemma entries_keys_values `{!Normalizers} (h : state) :
  reachable h →
  ∃ ks vs es,
    returns keys h ks ∧ returns values h vs
    ∧ returns entries h es ∧ returns Symbol_iterator h es
    ∧ length vs = length ks
    ∧ es.*1 = ks
    ∧ es.*2 = empty_as_null <$> vs.
Proof.
  intros Hwf%reachable_wf.
  exists (JsObject.keys (headers h)), (JsObject.values (headers h)),
    (entry h <$> JsObject.keys (headers h)).
  split_and!; [done|done|by apply entries_run|by apply entries_run|..].
  - symmetry. eapply Forall2_length, values_own.
  - rewrite <-list_fmap_compose. apply list_fmap_id.
  - apply entries_values.
Qed.

Lemma entries_keys_values_witness :
  reachable empty_value
  ∧ ∃ ks vs es,
      returns keys empty_value ks ∧ returns values empty_value vs
      ∧ returns entries empty_value es
      ∧ vs = [""] ∧ es.*2 = [JsNull].
Proof.
  pose proof empty_value_reachable as Hreach.
  split; [exact Hreach|].
  destruct (entries_keys_values empty_value Hreach)
    as (ks & vs & es & Hks & Hvs & Hes & _ & _ & _ & Hsnd).
  exists ks, vs, es.
  assert (vs = [""]) as Hvalues by (by injection Hvs as <-).
  split_and!; [exact Hks|exact Hvs|exact Hes|exact Hvalues|].
  by rewrite Hsnd, Hvalues.
Defined.

(** X14. On a reachable instance [forEach] does not throw and calls the
    callback once per stored header, in the order of [keys()], with the
    stored value as [values()] gives it (the empty string included) and the
    normalized name. *)
Lemma forEach_keys_values `{!Normalizers} (h : state) :
  reachable h →
  ∃ ks vs calls,
    returns keys h ks ∧ returns values h vs ∧ returns forEach h calls
    ∧ calls.*1 = vs ∧ calls.*2 = ks.
Proof.
  intros Hwf%reachable_wf.
  exists (JsObject.keys (headers h)), (JsObject.values (headers h)),
    (callback_arguments <$> own_entries (headers h)).
  split_and!; [done|done|by apply forEach_run|..].
  - rewrite <-list_fmap_compose. apply own_entries_values.
  - rewrite <-list_fmap_compose. apply own_entries_names.
Qed.

Lemma forEach_keys_values_witness :
  reachable empty_value
  ∧ ∃ calls, returns forEach empty_value calls
             ∧ calls.*1 = [""] ∧ calls.*2 = ["x"].
Proof.
  pose proof empty_value_reachable as Hreach.
  split; [exact Hreach|].
  destruct (forEach_keys_values empty_value Hreach)
    as (ks & vs & calls & Hks & Hvs & Hcalls & Hfst & Hsnd).
  exists calls. split_and!; [exact Hcalls|..].
  - rewrite Hfst. by injection Hvs as <-.
  - rewrite Hsnd. by injection Hks as <-.
Defined.

(** * The raw export as a whole *)

Lemma hasOwn_app_absent {V} (o : list (string * V)) (k k' : string) (v : V) :
  k ≠ k' → JsObject.hasOwn o k' = false →
  JsObject.hasOwn (o ++ [(k, v)]) k' = false.
Proof.
  intros Hne Hown. apply not_true_is_false. rewrite hasOwn_elem_of.
  rewrite fmap_app, elem_of_app. csimpl. rewrite list_elem_of_singleton.
  intros [Hin| ->]; [|done].
  apply hasOwn_elem_of in Hin. congruence.
Qed.

(** Assignments to distinct new names, none of them [__proto__], create one
    property each, in order. *)
Lemma foldl_assign_fresh {V} (f : string → string)
    (es : list (string * V)) : ∀ acc : list (string * V),
  NoDup (f <$> es.*1) →
  Forall (λ e, f e.1 ≠ "__proto__" ∧ JsObject.hasOwn acc (f e.1) = false) es →
  foldl (λ o '(name, value), JsObject.assign o (f name) value) acc es
  = acc ++ ((λ e, (f e.1, e.2)) <$> es).
Proof.
  induction es as [|[name value] es IH]; intros acc Hnodup Hes.
  - by rewrite app_nil_r.
  - apply Forall_cons in Hes as [[Hproto Habsent] Hes].
    csimpl in *. apply NoDup_cons in Hnodup as [Hfresh Hnodup].
    unfold JsObject.assign at 2. rewrite Habsent, decide_False by done.
    rewrite define_absent by done. rewrite IH; [by rewrite <-app_assoc|done|].
    apply Forall_forall. intros e He.
    rewrite Forall_forall in Hes. destruct (Hes e He) as [? ?].
    split; [done|]. apply hasOwn_app_absent; [|done].
    intros Heq. apply Hfresh. rewrite Heq.
    apply list_elem_of_fmap. exists e.1. split; [done|].
    by apply list_elem_of_fmap_2.
Qed.

(** X15. On a reachable instance where no stored header was last written
    under the spelling [__proto__], [raw()] returns an object with one
    property per stored header, created in the order of [keys()]: its name
    is the spelling recorded for the header and its value is the one
    [entries()] yields. *)
Lemma raw_entries `{!Normalizers} (h : state) :
  reachable h →
  Forall (λ k, names h !! k ≠ Some "__proto__") (JsObject.keys (headers h)) →
  ∃ ks es rawHeaders,
    returns keys h ks ∧ returns entries h es ∧ returns raw h rawHeaders
    ∧ Forall2 (λ k spelling, names h !! k = Some spelling) ks rawHeaders.*1
    ∧ rawHeaders.*2 = es.*2.
Proof.
  intros Hwf%reachable_wf Hproto.
  set (ks := JsObject.keys (headers h)) in *.
  assert (∀ k, k ∈ ks → JsObject.hasOwn (headers h) k = true) as Hstored.
  { intros k Hk. by apply hasOwn_elem_of, order_elem_of. }
  exists ks, (entry h <$> ks),
    ((λ e, (names_get (names h) e.1, e.2)) <$> (entry h <$> ks)).
  split_and!; [done|by apply entries_run| |..].
  - unfold returns. rewrite (raw_run h Hwf). do 2 f_equal.
    unfold raw_object. fold ks.
    rewrite (foldl_assign_fresh (names_get (names h))); [done| |].
    + rewrite <-!list_fmap_compose.
      apply (NoDup_fmap_2_strong (names_get (names h))).
      * intros k k' Hk Hk'. apply (wf_names_get_inj h); auto.
      * apply order_NoDup, Hwf.
    + apply Forall_fmap, Forall_forall. intros k Hk. simpl.
      split; [|done]. rewrite Forall_forall in Hproto.
      destruct (wf_raw_name h Hwf k (Hstored k Hk)) as [r Hr].
      unfold names_get. rewrite Hr. simpl. intros ->. by apply (Hproto k).
  - rewrite <-!list_fmap_compose. apply Forall2_fmap_r, Forall_Forall2_diag.
    apply Forall_forall. intros k Hk. simpl.
    destruct (wf_raw_name h Hwf k (Hstored k Hk)) as [r Hr].
    unfold names_get. by rewrite Hr.
  - by rewrite <-!list_fmap_compose.
Qed.

Lemma raw_entries_witness :
  reachable overwritten
  ∧ Forall (λ k, names overwritten !! k ≠ Some "__proto__")
      (JsObject.keys (headers overwritten))
  ∧ ∃ rawHeaders, returns raw overwritten rawHeaders
                  ∧ rawHeaders.*2 = [JsString "3"; JsString "2"].
Proof.
  pose proof overwritten_reachable as Hreach.
  assert (Forall (λ k, names overwritten !! k ≠ Some "__proto__")
            (JsObject.keys (headers overwritten))) as Hproto
    by (by repeat constructor).
  split_and!; [exact Hreach|exact Hproto|].
  destruct (raw_entries overwritten Hreach Hproto)
    as (ks & es & rawHeaders & _ & Hes & Hraw & _ & Hvalues).
  exists rawHeaders. split; [exact Hraw|].
  rewrite Hvalues. by injection Hes as <-.
Defined.

(** * Copying an instance *)

Lemma filter_all {A} (P : A → Prop) `{∀ x, Decision (P x)} (l : list A) :
  Forall P l → filter P l = l.
Proof.
  induction 1 as [|x r Hx _ IH]; [done|].
  by rewrite filter_cons_True, IH.
Qed.

Lemma filter_none {A} (P : A → Prop) `{∀ x, Decision (P x)} (l : list A) :
  Forall (λ x, ¬ P x) l → filter P l = [].
Proof.
  induction 1 as [|x r Hx _ IH]; [done|].
  by rewrite filter_cons_False.
Qed.

Lemma sort_indices_sorted_id (l : list string) :
  Sorted index_le l → JsObject.sort_indices l = l.
Proof.
  induction 1 as [|k r Hr IH Hhd]; [done|].
  simpl. rewrite IH. destruct Hhd as [|k' r' Hle]; [done|].
  simpl. unfold index_le in Hle.
  by destruct (N.leb_spec (JsObject.index_value k) (JsObject.index_value k'));
    [|lia].
Qed.

(** Names listed in property order are in property order. *)
Lemma order_order (l : list string) :
  JsObject.order (JsObject.order l) = JsObject.order l.
Proof.
  unfold JsObject.order at 1.
  set (indices := JsObject.sort_indices
                    (filter (λ k, JsObject.is_index k = true) l)).
  set (others := filter (λ k, JsObject.is_index k = false) l).
  change (JsObject.order l) with (indices ++ others).
  assert (Forall (λ k, JsObject.is_index k = true) indices) as Hindices.
  { apply Forall_forall. intros k. unfold indices.
    rewrite sort_indices_perm, list_elem_of_filter. by intros [? _]. }
  assert (Forall (λ k, JsObject.is_index k = false) others) as Hothers.
  { apply Forall_forall. intros k. unfold others.
    rewrite list_elem_of_filter. by intros [? _]. }
  rewrite !filter_app.
  rewrite (filter_all _ indices), (filter_none _ others), app_nil_r by
    (done || (eapply Forall_impl; [done|]; simpl; congruence)).
  rewrite (filter_none _ indices), (filter_all _ others) by
    (done || (eapply Forall_impl; [done|]; simpl; congruence)).
  simpl. f_equal. apply sort_indices_sorted_id, sort_indices_sorted.
Qed.

(** A list of properties of [o] holds nothing else for a name than [o]. *)
Lemma own_sublist {V} (o l : list (string * V)) (k : string) (v : V) :
  Forall (λ e, JsObject.own o e.1 = Some e.2) l →
  JsObject.own l k = Some v → JsObject.own o k = Some v.
Proof.
  induction 1 as [|[k' v'] r He _ IH]; simpl; [done|].
  destruct (decide (k' = k)) as [<-|]; [by intros [= <-]|done].
Qed.

Lemma own_entries_own {V} (o : list (string * V)) :
  Forall (λ e, JsObject.own o e.1 = Some e.2) (own_entries o).
Proof.
  unfold own_entries.
  induction (JsObject.keys o) as [|k ks IH]; [constructor|].
  csimpl. destruct (JsObject.own o k) eqn:Hk; csimpl; [|done].
  by constructor.
Qed.

(** Listing the properties in property order changes no lookup. *)
Lemma own_own_entries {V} (o : list (string * V)) (k : string) :
  JsObject.own (own_entries o) k = JsObject.own o k.
Proof.
  destruct (JsObject.own (own_entries o) k) as [v|] eqn:Hcopy.
  - symmetry. eapply own_sublist; [apply own_entries_own|done].
  - apply hasOwn_false in Hcopy. symmetry. apply hasOwn_false.
    apply not_true_is_false. intros Hown. apply not_true_iff_false in Hcopy.
    apply Hcopy. rewrite hasOwn_elem_of, own_entries_names.
    by apply order_elem_of, hasOwn_elem_of.
Qed.

Section Copy_facts.
Context `{!Normalizers}.
Implicit Types (h : state).

(** Appending new, already normalized headers one after the other. *)
Lemma sequential_appends_fresh (l : list (string * string)) : ∀ h,
  wf h →
  NoDup l.*1 →
  Forall (λ e, normalizeHeaderName e.1 = Normal e.1
               ∧ normalizeHeaderValue e.2 = Normal e.2
               ∧ e.1 ≠ "__proto__"
               ∧ JsObject.hasOwn (headers h) e.1 = false) l →
  ∃ h', sequential_appends h l = Normal h'
        ∧ headers h' = headers h ++ l
        ∧ ∀ k, names h' !! k
               = if bool_decide (k ∈ l.*1) then Some k else names h !! k.
Proof.
  induction l as [|[k v] r IH]; intros h Hwf Hnodup Hl.
  - exists h. split_and!; [done|by rewrite app_nil_r|done].
  - apply Forall_cons in Hl as [(Hk & Hv & Hproto & Habsent) Hr].
    csimpl in *. apply NoDup_cons in Hnodup as [Hfresh Hnodup].
    rewrite append_run, Hk, (wf_callable h Hwf). unfold resolved.
    rewrite Habsent, set_run, Hk, Hv.
    destruct (IH (stored h k k v)) as (h' & Hrun & Hheaders & Hnames).
    + by apply wf_stored_state.
    + done.
    + apply Forall_forall. intros e He. rewrite Forall_forall in Hr.
      destruct (Hr e He) as (? & ? & ? & Hown). split_and!; [done..|].
      simpl. rewrite hasOwn_assign, decide_False; [done|].
      intros ->. apply Hfresh. by apply list_elem_of_fmap_2.
    + exists h'. split_and!; [done| |].
      * rewrite Hheaders. simpl. unfold JsObject.assign.
        rewrite Habsent, decide_False, define_absent by done.
        by rewrite <-app_assoc.
      * intros k'. rewrite Hnames. simpl.
        destruct (decide (k' = k)) as [->|Hne].
        -- rewrite (bool_decide_eq_false_2 (k ∈ r.*1)) by done.
           rewrite bool_decide_eq_true_2 by (apply elem_of_cons; by left).
           apply lookup_insert_eq.
        -- rewrite lookup_insert_ne by done.
           rewrite (bool_decide_ext (k' ∈ k :: r.*1) (k' ∈ r.*1)); [done|].
           rewrite elem_of_cons. split; [by intros [|]|by right].
Qed.

End Copy_facts.

Lemma callback_arguments_back (l : list (string * string)) :
  (λ '(value, name), (name, value)) <$> (callback_arguments <$> l) = l.
Proof.
  induction l as [|[name value] l IH]; [done|]. csimpl. by rewrite IH.
Qed.

(** X16. Copy construction. Let [h] be a reachable instance whose stored
    values value normalization leaves unchanged, and [calls] what its
    [forEach] passes on. Then [new HeadersPolyfill(h)] returns an instance
    with the same stored value for every name and the same order of
    [keys()]; the raw spellings are not copied: the spelling recorded for
    each header of the copy is its normalized name. *)
Lemma constructor_copy `{!Normalizers} (h : state) (calls : list (string * string)) :
  reachable h →
  Forall (λ e, normalizeHeaderValue e.2 = Normal e.2) (headers h) →
  returns forEach h calls →
  ∃ h', constructor (FromHeaders calls) = Normal h'
        ∧ (∀ k, JsObject.own (headers h') k = JsObject.own (headers h) k)
        ∧ (∃ ks, returns keys h ks ∧ returns keys h' ks)
        ∧ (∀ k, names h' !! k
                = if JsObject.hasOwn (headers h) k then Some k else None).
Proof.
  intros Hwf%reachable_wf Hvalues Hcalls.
  unfold returns in Hcalls. rewrite (forEach_run h Hwf) in Hcalls.
  injection Hcalls as <-.
  rewrite constructor_sequential. simpl.
  rewrite callback_arguments_back.
  destruct (sequential_appends_fresh (own_entries (headers h)) new)
    as (h' & Hrun & Hheaders & Hnames).
  - apply wf_new.
  - rewrite own_entries_names. apply order_NoDup, Hwf.
  - pose proof (own_entries_own (headers h)) as Hown.
    eapply Forall_impl; [exact Hown|]. intros [k v] Hk. simpl in *.
    assert (JsObject.hasOwn (headers h) k = true) as Hhas
      by (apply hasOwn_true; eauto).
    split_and!; [by eapply wf_key_normalized| | |done].
    + exact (own_Forall (λ v, normalizeHeaderValue v = Normal v) _ _ _
               Hvalues Hk).
    + intros ->. by rewrite (wf_proto h Hwf) in Hhas.
  - simpl in Hheaders. exists h'. split_and!; [done| | |].
    + intros k. rewrite Hheaders. apply own_own_entries.
    + exists (JsObject.keys (headers h)). split; [done|].
      unfold returns, keys. rewrite bind_run. simpl.
      unfold JsObject.keys at 1. rewrite Hheaders, own_entries_names.
      unfold JsObject.keys. by rewrite order_order.
    + intros k. rewrite Hnames, own_entries_names.
      unfold new. cbn [names]. rewrite lookup_empty.
      destruct (JsObject.hasOwn (headers h) k) eqn:Hown.
      * rewrite bool_decide_eq_true_2; [done|].
        by apply order_elem_of, hasOwn_elem_of.
      * rewrite bool_decide_eq_false_2; [done|].
        unfold JsObject.keys. rewrite order_elem_of, <-hasOwn_elem_of.
        congruence.
Qed.

Lemma constructor_copy_witness :
  reachable overwritten
  ∧ Forall (λ e, normalizeHeaderValue e.2 = Normal e.2) (headers overwritten)
  ∧ returns forEach overwritten [("3", "a"); ("2", "b")]
  ∧ ∃ h', constructor (FromHeaders [("3", "a"); ("2", "b")]) = Normal h'
          ∧ JsObject.own (headers h') "a" = Some "3"
          ∧ names overwritten !! "a" = Some "A"
          ∧ names h' !! "a" = Some "a".
Proof.
  assert (Forall (λ e, normalizeHeaderValue e.2 = Normal e.2)
            (headers overwritten)) as Hvalues by (by repeat constructor).
  assert (returns forEach overwritten [("3", "a"); ("2", "b")]) as Hcalls
    by reflexivity.
  split_and!; [exact overwritten_reachable|exact Hvalues|exact Hcalls|].
  destruct (constructor_copy overwritten _ overwritten_reachable Hvalues Hcalls)
    as (h' & Hnew & Hown & _ & Hnames).
  exists h'. split_and!; [exact Hnew| |reflexivity|].
  - by rewrite Hown.
  - by rewrite Hnames.
Defined.

(** * What every stored entry is *)

Lemma remove_Forall {V} (P : string * V → Prop) (o : list (string * V)) k :
  Forall P o → Forall P (JsObject.remove o k).
Proof.
  induction 1 as [|[k' v'] r He _ IH]; simpl; [done|].
  destruct (decide (k' = k)); [done|by constructor].
Qed.

Section Stored_values.
Context `{!Normalizers}.
Implicit Types (h : state).

Lemma values_normalized_set h name value r h' :
  values_normalized h → set name value h = (r, h') → values_normalized h'.
Proof.
  intros Hh. rewrite set_run.
  destruct (normalizeHeaderName name) as [k|]; [|by intros [= _ <-]].
  destruct (normalizeHeaderValue value) as [v|] eqn:Hv; intros [= _ <-];
    [|done].
  unfold values_normalized. simpl. unfold JsObject.assign.
  repeat case_match; try done;
    apply (define_Forall (λ v, ∃ s, normalizeHeaderValue s = Normal v));
    eauto.
Qed.

Lemma values_normalized_mutate h c r h' :
  values_normalized h → mutate c h = (r, h') → values_normalized h'.
Proof.
  intros Hh. destruct c as [name value|name value|name]; simpl.
  - by apply values_normalized_set.
  - rewrite append_run.
    destruct (normalizeHeaderName name) as [k|]; [|by intros [= _ <-]].
    destruct (JsObject.hasOwn (headers h) "hasOwnProperty");
      [by intros [= _ <-]|].
    by apply values_normalized_set.
  - rewrite delete_run.
    destruct (normalizeHeaderName name) as [k|]; [|by intros [= _ <-]].
    repeat case_match; intros [= _ <-]; try done.
    by apply remove_Forall.
Qed.

Lemma values_normalized_appends l : ∀ h h',
  values_normalized h → sequential_appends h l = Normal h' →
  values_normalized h'.
Proof.
  induction l as [|[name value] l IH]; intros h h' Hh; simpl.
  - by intros [= <-].
  - destruct (append name value h) as [[[]|e] h1] eqn:Happend; [|done].
    apply IH.
    by apply (values_normalized_mutate h (Append name value) (Normal ()) h1).
Qed.

Lemma reachable_values_normalized h : reachable h → values_normalized h.
Proof.
  induction 1 as [init h Hnew|h c r h' _ IH Hrun].
  - rewrite constructor_sequential in Hnew.
    destruct (headers_shaped init); [|done].
    eapply values_normalized_appends; [|done]. constructor.
  - by eapply values_normalized_mutate.
Qed.

End Stored_values.

(** X17. Every entry of a reachable instance is normalized: a stored name
    is its own normalized form, is lower-case and is not [__proto__]; the
    spelling recorded for it normalizes to it; and the stored value is the
    result of value normalization on some string. *)
Lemma stored_entry_normalized `{!Normalizers} (h : state) (k v : string) :
  reachable h →
  JsObject.own (headers h) k = Some v →
  normalizeHeaderName k = Normal k
  ∧ lowercase k = k
  ∧ k ≠ "__proto__"
  ∧ (∃ spelling, names h !! k = Some spelling
                 ∧ normalizeHeaderName spelling = Normal k)
  ∧ (∃ value, normalizeHeaderValue value = Normal v).
Proof.
  intros Hreach Hown.
  pose proof (reachable_wf h Hreach) as Hwf.
  assert (JsObject.hasOwn (headers h) k = true) as Hhas
    by (apply hasOwn_true; eauto).
  pose proof (wf_key_normalized h k Hwf Hhas) as Hk.
  split_and!; [done|by eapply normalizeHeaderName_lowercase| | |].
  - intros ->. by rewrite (wf_proto h Hwf) in Hhas.
  - destruct (wf_raw_name h Hwf k Hhas) as [spelling Hspelling].
    exists spelling. split; [done|]. by apply (wf_spelling h Hwf).
  - exact (own_Forall (λ v, ∃ value, normalizeHeaderValue value = Normal v)
             _ _ _ (reachable_values_normalized h Hreach) Hown).
Qed.

Lemma stored_entry_normalized_witness :
  reachable overwritten
  ∧ JsObject.own (headers overwritten) "b" = Some "2"
  ∧ normalizeHeaderName "b" = Normal "b"
  ∧ ∃ spelling, names overwritten !! "b" = Some spelling
                ∧ normalizeHeaderName spelling = Normal "b".
Proof.
  assert (JsObject.own (headers overwritten) "b" = Some "2") as Hown
    by reflexivity.
  split_and!; [exact overwritten_reachable|exact Hown|..];
    apply (stored_entry_normalized overwritten "b" "2"
             overwritten_reachable Hown).
Defined.

(** * Presence after a call *)

(** X18. On a reachable instance, after a call of [set] or [append] that
    returns, [has] is true under every spelling of the name, unless the
    name is [__proto__], for which it is false; after a call of [delete]
    that returns, [has] is false under every spelling of the name. *)
Lemma has_after_mutation `{!Normalizers}
    (h h' : state) (c : Mutation) (spelling k : string) :
  reachable h →
  mutate c h = (Normal (), h') →
  normalizeHeaderName (mutation_name c) = Normal k →
  normalizeHeaderName spelling = Normal k →
  returns (has spelling) h'
    (match c with
     | Set_ _ _ | Append _ _ => negb (bool_decide (k = "__proto__"))
     | Delete _ => false
     end).
Proof.
  intros Hwf%reachable_wf Hrun Hk Hspelling.
  assert (wf h') as Hwf' by eauto using wf_mutate.
  unfold returns. rewrite has_run, Hspelling, (wf_callable h' Hwf').
  do 2 f_equal.
  assert (∀ value, set (mutation_name c) value h = (Normal (), h') →
            JsObject.hasOwn (headers h') k
            = negb (bool_decide (k = "__proto__"))) as Hset.
  { intros value. rewrite set_run, Hk.
    destruct (normalizeHeaderValue value); [|done]. intros [= <-]. simpl.
    rewrite hasOwn_assign, decide_True by done.
    case_bool_decide as Hproto; [|apply orb_true_r].
    subst k. by rewrite (wf_proto h Hwf). }
  destruct c as [name value|name value|name]; simpl in *.
  - eauto.
  - rewrite append_run, Hk, (wf_callable h Hwf) in Hrun. eauto.
  - rewrite delete_run, Hk, (wf_callable h Hwf) in Hrun.
    destruct (JsObject.hasOwn (headers h) k) eqn:Hown;
      injection Hrun as <-; [|done].
    simpl. by rewrite hasOwn_remove, decide_True.
Qed.

Lemma has_after_mutation_witness :
  reachable one_header
  ∧ (∃ h', mutate (Append "X-Id" "7") one_header = (Normal (), h')
           ∧ returns (has " x-ID ") h' true)
  ∧ (∃ h', mutate (Delete "ACCEPT") one_header = (Normal (), h')
           ∧ returns (has "accept") h' false).
Proof.
  split_and!; [exact one_header_reachable|..]; eexists.
  - assert (mutate (Append "X-Id" "7") one_header
            = (Normal (), stored one_header "x-id" "X-Id" "7")) as Hrun
      by reflexivity.
    split; [exact Hrun|].
    exact (has_after_mutation one_header _ (Append "X-Id" "7") " x-ID " "x-id"
             one_header_reachable Hrun eq_refl eq_refl).
  - assert (mutate (Delete "ACCEPT") one_header
            = (Normal (), removed one_header "accept")) as Hrun
      by reflexivity.
    split; [exact Hrun|].
    exact (has_after_mutation one_header _ (Delete "ACCEPT") "accept" "accept"
             one_header_reachable Hrun eq_refl eq_refl).
Defined.
